(** * SHH: a verification development for [C-Shell/c_shell.c]

    The interpreter is embedded shallowly.  Heap blocks are lists indexed
    with stdpp's lookup and insert, C [int]s are [Z] with the signed range
    checked where the source can leave it, and every function that touches
    the process state (standard streams, working directory, children) is a
    state-passing computation over a [world].  What the operating system
    answers (allocation, [chdir], [fork], [execvp], [waitpid]) is collected
    in an [environment]. *)

From Stdlib Require Import ZArith Lia Bool Ascii String.
From stdpp Require Import base list strings.

Local Open Scope Z_scope.

(** ** Characters and C strings *)

Definition NUL : ascii := "000"%char.
Definition nl : string := String "010"%char EmptyString.
Definition dquote : string := String "034"%char EmptyString.

(** [getchar] hands a character back as an [unsigned char] widened to [int]. *)
Definition int_of_char (c : ascii) : Z := Z.of_N (N_of_ascii c).
(** Storing an [int] into a [char] cell keeps the low eight bits. *)
Definition char_of_int (c : Z) : ascii := ascii_of_N (Z.to_N (c mod 256)).

Definition EOF : Z := -1.
Definition EXIT_SUCCESS : Z := 0.
Definition EXIT_FAILURE : Z := 1.
Definition INT_MAX : Z := 2147483647.
(** [sizeof(char * )] on the LP64 targets the program is built for. *)
Definition sizeof_ptr : Z := 8.

(** The string a [char *] at offset [p] of block [m] denotes: the characters
    up to the first NUL.  [None] when the block ends before a NUL is met. *)
Fixpoint cstring (l : list ascii) : option string :=
  match l with
  | [] => None
  | c :: l' =>
      if decide (c = NUL) then Some EmptyString
      else String c <$> cstring l'
  end.

Definition cstring_at (m : list ascii) (p : nat) : option string :=
  cstring (drop p m).

(** [strcmp]: the difference of the first pair of differing characters,
    compared as [unsigned char]. *)
Fixpoint strcmp (s t : string) : Z :=
  match s, t with
  | EmptyString, EmptyString => 0
  | EmptyString, String b _ => - int_of_char b
  | String a _, EmptyString => int_of_char a
  | String a s', String b t' =>
      if decide (a = b) then strcmp s' t' else int_of_char a - int_of_char b
  end.

(** ** The process state and the environment *)

Definition errno := Z.
(** A directory is identified by its canonical absolute name. *)
Definition dir := string.

(** What [waitpid] stores through its status pointer, decoded by the
    [<sys/wait.h>] macros: POSIX makes the three cases exclusive. *)
Inductive wstatus :=
| WExited (code : Z)
| WSignaled (sig : Z)
| WStopped (sig : Z).

Definition WIFEXITED (s : wstatus) : bool :=
  match s with WExited _ => true | _ => false end.
Definition WIFSIGNALED (s : wstatus) : bool :=
  match s with WSignaled _ => true | _ => false end.
Definition WIFSTOPPED (s : wstatus) : bool :=
  match s with WStopped _ => true | _ => false end.

(** One [waitpid] call: [inl s] when it reports a state change [s] of the
    child, [inr e] when it fails with error [e] and leaves the status
    variable untouched. *)
Definition wait_event : Type := wstatus + errno.

Record child := {
  ch_pid : positive;
  ch_cwd : dir;                              (* inherited at [fork] *)
  ch_image : option (string * list string)   (* file and argv it runs, if
                                                [execvp] succeeded *)
}.

Record world := {
  w_cwd : dir;
  w_stdin : list ascii;        (* unread input; end-of-stream once empty *)
  w_stdout : list string;      (* writes to standard output, oldest first *)
  w_stderr : list string;      (* writes to standard error, oldest first *)
  w_errno : errno;
  w_children : list child;     (* children created so far, oldest first *)
  w_forks : nat;               (* number of [fork] calls made *)
  w_waits : nat;               (* number of [waitpid] calls that returned *)
  w_pending : list wait_event  (* what [waitpid] will answer for the
                                  outstanding child, in order *)
}.

Record environment := {
  (** does a [malloc]/[realloc] request of that many bytes succeed *)
  alloc_ok : Z -> bool;
  (** contents of a fresh, uninitialised cell at a given index *)
  junk_char : nat -> ascii;
  junk_ptr : nat -> option nat;
  (** [chdir]: the directory the path names from the current one, or the
      error *)
  os_chdir : dir -> string -> dir + errno;
  os_strerror : errno -> string;
  (** the [fork] call number [n]: the child's pid or the error *)
  os_fork : nat -> positive + errno;
  (** [execvp] in the child of fork number [n]: the answers [waitpid] will
      give about the new program, or the error *)
  os_execvp : nat -> dir -> string -> list string -> list wait_event + errno
}.

(** How a computation can end without returning to its caller. *)
Inductive halt :=
| Exited (code : Z)       (* [exit(code)] *)
| Replaced (file : string) (argv : list string)
                          (* [execvp] succeeded: that program runs now *)
| Blocked                 (* sleeping in [waitpid] for ever *)
| OutOfFuel               (* the step budget of the model ran out *)
| Undefined.              (* behaviour the C standard leaves undefined *)

Inductive result (A : Type) :=
| Ret (a : A) (w : world)
| Halt (h : halt) (w : world).
Arguments Ret {A} a w.
Arguments Halt {A} h w.

Definition M (A : Type) : Type := world -> result A.

Definition ret {A} (a : A) : M A := fun w => Ret a w.
Definition bind {A B} (m : M A) (k : A -> M B) : M B :=
  fun w => match m w with
           | Ret a w' => k a w'
           | Halt h w' => Halt h w'
           end.
Definition stop {A} (h : halt) : M A := fun w => Halt h w.

Notation "'let*' x ':=' m 'in' k" := (bind m (fun x => k))
  (at level 10, x pattern, m at level 100, k at level 200).
Notation "m ';;' k" := (bind m (fun _ => k))
  (at level 100, k at level 200, right associativity).

Definition set_cwd (d : dir) (w : world) : world :=
  {| w_cwd := d; w_stdin := w_stdin w; w_stdout := w_stdout w;
     w_stderr := w_stderr w; w_errno := w_errno w;
     w_children := w_children w; w_forks := w_forks w;
     w_waits := w_waits w; w_pending := w_pending w |}.
Definition set_stdin (i : list ascii) (w : world) : world :=
  {| w_cwd := w_cwd w; w_stdin := i; w_stdout := w_stdout w;
     w_stderr := w_stderr w; w_errno := w_errno w;
     w_children := w_children w; w_forks := w_forks w;
     w_waits := w_waits w; w_pending := w_pending w |}.
Definition set_stdout (o : list string) (w : world) : world :=
  {| w_cwd := w_cwd w; w_stdin := w_stdin w; w_stdout := o;
     w_stderr := w_stderr w; w_errno := w_errno w;
     w_children := w_children w; w_forks := w_forks w;
     w_waits := w_waits w; w_pending := w_pending w |}.
Definition set_stderr (e : list string) (w : world) : world :=
  {| w_cwd := w_cwd w; w_stdin := w_stdin w; w_stdout := w_stdout w;
     w_stderr := e; w_errno := w_errno w;
     w_children := w_children w; w_forks := w_forks w;
     w_waits := w_waits w; w_pending := w_pending w |}.
Definition set_errno (e : errno) (w : world) : world :=
  {| w_cwd := w_cwd w; w_stdin := w_stdin w; w_stdout := w_stdout w;
     w_stderr := w_stderr w; w_errno := e;
     w_children := w_children w; w_forks := w_forks w;
     w_waits := w_waits w; w_pending := w_pending w |}.
Definition set_children (cs : list child) (w : world) : world :=
  {| w_cwd := w_cwd w; w_stdin := w_stdin w; w_stdout := w_stdout w;
     w_stderr := w_stderr w; w_errno := w_errno w;
     w_children := cs; w_forks := w_forks w;
     w_waits := w_waits w; w_pending := w_pending w |}.
Definition set_forks (n : nat) (w : world) : world :=
  {| w_cwd := w_cwd w; w_stdin := w_stdin w; w_stdout := w_stdout w;
     w_stderr := w_stderr w; w_errno := w_errno w;
     w_children := w_children w; w_forks := n;
     w_waits := w_waits w; w_pending := w_pending w |}.
Definition set_waits (n : nat) (w : world) : world :=
  {| w_cwd := w_cwd w; w_stdin := w_stdin w; w_stdout := w_stdout w;
     w_stderr := w_stderr w; w_errno := w_errno w;
     w_children := w_children w; w_forks := w_forks w;
     w_waits := n; w_pending := w_pending w |}.
Definition set_pending (evs : list wait_event) (w : world) : world :=
  {| w_cwd := w_cwd w; w_stdin := w_stdin w; w_stdout := w_stdout w;
     w_stderr := w_stderr w; w_errno := w_errno w;
     w_children := w_children w; w_forks := w_forks w;
     w_waits := w_waits w; w_pending := evs |}.

(** ** The C library, as far as the shell uses it *)

Definition printf (s : string) : M unit :=
  fun w => Ret tt (set_stdout (w_stdout w ++ [s]) w).

Definition fprintf_stderr (s : string) : M unit :=
  fun w => Ret tt (set_stderr (w_stderr w ++ [s]) w).

Definition exit {A} (code : Z) : M A := stop (Exited code).

Definition getchar : M Z :=
  fun w => match w_stdin w with
           | [] => Ret EOF w
           | c :: rest => Ret (int_of_char c) (set_stdin rest w)
           end.

(** [a + b] on [int]: leaving the signed range is undefined. *)
Definition int_add (a b : Z) : M Z :=
  if a + b <=? INT_MAX then ret (a + b) else stop Undefined.

(** [block[i] = x]; a store outside the block is undefined. *)
Definition store {A} (block : list A) (i : Z) (x : A) : M (list A) :=
  if (0 <=? i) && (i <? Z.of_nat (length block))
  then ret (<[Z.to_nat i := x]> block)
  else stop Undefined.

Section Shell.

Variable env : environment.

Definition perror (prefix : string) : M unit :=
  fun w =>
    fprintf_stderr (prefix +:+ ": " +:+ os_strerror env (w_errno w) +:+ nl) w.

(** [malloc(n)] for [n] cells of [size] bytes: [None] is the null pointer. *)
Definition malloc {A} (junk : nat -> A) (size n : Z) : option (list A) :=
  if alloc_ok env (size * n)
  then Some (junk <$> seq 0 (Z.to_nat n))
  else None.

(** [realloc(block, n)]: the old cells are kept, the new ones are junk. *)
Definition realloc {A} (junk : nat -> A) (block : list A) (size n : Z)
  : option (list A) :=
  if alloc_ok env (size * n)
  then Some (take (Z.to_nat n) block
             ++ (junk <$> seq (length block) (Z.to_nat n - length block)))
  else None.

Definition allocation_error : string := "shh: allocation error" +:+ nl.

(** *** [shh_read_line] *)

Definition SHH_RL_BUFSIZE : Z := 1024.

(** The [while (1)] loop.  Every round consumes one character or returns,
    so the budget [fuel] is the number of rounds allowed. *)
Fixpoint read_line_loop (fuel : nat) (buffer : list ascii)
    (bufsize position : Z) : M (list ascii) :=
  match fuel with
  | O => stop OutOfFuel
  | S fuel =>
      let* c := getchar in
      if (c =? EOF) || (c =? int_of_char "010") then
        let* buffer := store buffer position NUL in
        ret buffer
      else
        let* buffer := store buffer position (char_of_int c) in
        let position := position + 1 in
        if position >=? bufsize then
          let* bufsize := int_add bufsize SHH_RL_BUFSIZE in
          match realloc (junk_char env) buffer 1 bufsize with
          | None => fprintf_stderr allocation_error ;; exit EXIT_FAILURE
          | Some buffer => read_line_loop fuel buffer bufsize position
          end
        else read_line_loop fuel buffer bufsize position
  end.

Definition shh_read_line : M (list ascii) :=
  fun w =>
    let bufsize := SHH_RL_BUFSIZE in
    let position := 0 in
    match malloc (junk_char env) 1 bufsize with
    | None => (fprintf_stderr allocation_error ;; exit EXIT_FAILURE) w
    | Some buffer =>
        read_line_loop (S (length (w_stdin w))) buffer bufsize position w
    end.

(** *** [strtok], as ISO C 7.24.5.8 describes it

    The line block is passed and returned explicitly; [save] is the static
    pointer [strtok] keeps between calls. *)

Definition in_set (c : ascii) (set : string) : bool :=
  bool_decide (c ∈ list_ascii_of_string set).

(** Length of the leading run of characters that belong to [accept]. *)
Fixpoint strspn (l : list ascii) (accept : string) : nat :=
  match l with
  | [] => O
  | c :: l' =>
      if decide (c = NUL) then O
      else if in_set c accept then S (strspn l' accept) else O
  end.

(** Length of the leading run of characters that do not belong to
    [reject]. *)
Fixpoint strcspn (l : list ascii) (reject : string) : nat :=
  match l with
  | [] => O
  | c :: l' =>
      if decide (c = NUL) then O
      else if in_set c reject then O else S (strcspn l' reject)
  end.

Definition load {A} (block : list A) (i : nat) : M A :=
  match block !! i with
  | Some x => ret x
  | None => stop Undefined
  end.

Definition strtok (line : list ascii) (save : nat) (str : option nat)
    (delim : string) : M (option nat * list ascii * nat) :=
  let s := default save str in
  let s := (s + strspn (drop s line) delim)%nat in
  let* c := load line s in
  if decide (c = NUL) then ret (None, line, s)
  else
    let e := (s + strcspn (drop s line) delim)%nat in
    let* c := load line e in
    if decide (c = NUL) then ret (Some s, line, e)
    else ret (Some s, <[e := NUL]> line, S e).

(** *** [shh_split_line] *)

Definition SHH_TOK_BUFSIZE : Z := 1024.
Definition SHH_TOK_DELIM : string :=
  String " " (String "009" (String "010" (String "013" (String "007" "")))).

(** The [while (token != NULL)] loop; each round stores one token. *)
Fixpoint split_line_loop (fuel : nat) (line : list ascii) (save : nat)
    (tokens : list (option nat)) (bufsize position : Z) (token : option nat)
  : M (list (option nat) * list ascii) :=
  match token with
  | None =>
      let* tokens := store tokens position None in
      ret (tokens, line)
  | Some _ =>
      match fuel with
      | O => stop OutOfFuel
      | S fuel =>
          let* tokens := store tokens position token in
          let position := position + 1 in
          let* (tokens, bufsize) :=
            (if position >=? bufsize then
               let* bufsize := int_add bufsize SHH_TOK_BUFSIZE in
               match realloc (junk_ptr env) tokens sizeof_ptr bufsize with
               | None => fprintf_stderr allocation_error ;; exit EXIT_FAILURE
               | Some tokens => ret (tokens, bufsize)
               end
             else ret (tokens, bufsize)) in
          let* (token, line, save) := strtok line save None SHH_TOK_DELIM in
          split_line_loop fuel line save tokens bufsize position token
      end
  end.

(** Returns the token array together with the line block, which [strtok]
    has changed in place and which the tokens point into. *)
Definition shh_split_line (line : list ascii)
  : M (list (option nat) * list ascii) :=
  let bufsize := SHH_TOK_BUFSIZE in
  let position := 0 in
  match malloc (junk_ptr env) sizeof_ptr bufsize with
  | None => fprintf_stderr allocation_error ;; exit EXIT_FAILURE
  | Some tokens =>
      let* (token, line', save) := strtok line O (Some O) SHH_TOK_DELIM in
      split_line_loop (length line) line' save tokens bufsize position token
  end.

(** The token sequence a [char **] denotes: the strings its entries point
    to, up to the first null entry.  [None] when the array has no null entry
    or an entry points to no terminated string. *)
Fixpoint load_args (line : list ascii) (tokens : list (option nat))
  : option (list string) :=
  match tokens with
  | [] => None
  | None :: _ => Some []
  | Some p :: tokens' =>
      match cstring_at line p, load_args line tokens' with
      | Some s, Some rest => Some (s :: rest)
      | _, _ => None
      end
  end.

(** [args[i]] of a null-terminated [char **]: entry [length args] is the
    null marker, reading past it is undefined. *)
Definition arg (args : list string) (i : nat) : M (option string) :=
  if (i <=? length args)%nat then ret (args !! i) else stop Undefined.

(** *** The builtins *)

Definition builtin_str : list string := ["cd"; "help"; "exit"]%string.

Definition shh_num_builtins : Z := Z.of_nat (length builtin_str).

Definition chdir (path : string) : M Z :=
  fun w => match os_chdir env (w_cwd w) path with
           | inl d => Ret 0 (set_cwd d w)
           | inr e => Ret (-1) (set_errno e w)
           end.

Definition missing_argument : string :=
  "shh: expected argument to " +:+ dquote +:+ "cd" +:+ dquote +:+ nl.

Definition shh_cd (args : list string) : M Z :=
  let* a1 := arg args 1 in
  match a1 with
  | None => fprintf_stderr missing_argument ;; ret 1
  | Some path =>
      let* r := chdir path in
      (if negb (r =? 0) then perror "shh" else ret tt) ;;
      ret 1
  end.

Fixpoint help_for (fuel : nat) (i : Z) : M unit :=
  if i <? shh_num_builtins then
    match fuel with
    | O => stop OutOfFuel
    | S fuel =>
        let* name := load builtin_str (Z.to_nat i) in
        printf ("    " +:+ name +:+ nl) ;;
        help_for fuel (i + 1)
    end
  else ret tt.

Definition shh_help (args : list string) : M Z :=
  printf ("AkG's SHH " +:+ nl) ;;
  printf ("Type program names and arguments, and hit enter." +:+ nl) ;;
  printf ("The following are built in:" +:+ nl) ;;
  help_for (length builtin_str) 0 ;;
  printf ("Use the man command for information on other programs." +:+ nl) ;;
  ret 1.

Definition shh_exit (args : list string) : M Z := ret 0.

Definition builtin_func : list (list string -> M Z) :=
  [shh_cd; shh_help; shh_exit].

(** *** [shh_launch] *)

(** [execvp] returns only when it fails. *)
Definition execvp (file : string) (argv : list string) : M Z :=
  fun w =>
    match os_execvp env (w_forks w) (w_cwd w) file argv with
    | inl evs => Halt (Replaced file argv) (set_pending evs w)
    | inr e => Ret (-1) (set_errno e w)
    end.

(** [fork]: [child_body] is what the program goes on to do in the child,
    where the call returns 0.  The child starts from a copy of the process
    and shares its standard streams; the parent sees what the child wrote
    before it exited or was replaced, and [waitpid] will report the child's
    exit, or what the environment says of the program that replaced it. *)
Definition fork (child_body : M Z) : M Z :=
  fun w =>
    let n := w_forks w in
    match os_fork env n with
    | inr e => Ret (-1) (set_errno e (set_forks (S n) w))
    | inl pid =>
        let born (image : option (string * list string)) (wc : world)
            (evs : list wait_event) : world :=
          set_pending evs
            (set_children
               (w_children w
                ++ [{| ch_pid := pid; ch_cwd := w_cwd w; ch_image := image |}])
               (set_stderr (w_stderr wc)
                  (set_stdout (w_stdout wc) (set_forks (S n) w)))) in
        match child_body (set_pending [] w) with
        | Halt (Exited code) wc =>
            Ret (Zpos pid) (born None wc [inl (WExited code)])
        | Halt (Replaced file argv) wc =>
            Ret (Zpos pid) (born (Some (file, argv)) wc (w_pending wc))
        | Halt h wc => Halt h wc
        | Ret _ wc => Halt Undefined wc
        end
    end.

Definition waitpid (pid : Z) (status : option wstatus)
  : M (Z * option wstatus) :=
  fun w =>
    match w_pending w with
    | [] => Halt Blocked w
    | ev :: rest =>
        let w' := set_pending rest (set_waits (S (w_waits w)) w) in
        match ev with
        | inl s => Ret (pid, Some s) w'
        | inr e => Ret (-1, status) (set_errno e w')
        end
    end.

(** The [do ... while] loop of the parent.  [status] is [None] while the
    variable is still uninitialised. *)
Fixpoint wait_loop (fuel : nat) (pid : Z) (status : option wstatus)
  : M unit :=
  match fuel with
  | O => stop OutOfFuel
  | S fuel =>
      let* (wpid, status) := waitpid pid status in
      match status with
      | None => stop Undefined
      | Some s =>
          if negb (WIFEXITED s) && negb (WIFSIGNALED s)
          then wait_loop fuel pid status
          else ret tt
      end
  end.

(** The function body after [pid = fork()], for each value [fork] can
    return. *)
Definition shh_launch_as (pid : Z) (args : list string) : M Z :=
  (if pid =? 0 then
     (* child process *)
     let* a0 := arg args 0 in
     match a0 with
     | None => stop Undefined
     | Some file =>
         let* r := execvp file args in
         (if r =? -1 then perror "shh" else ret tt) ;;
         exit EXIT_FAILURE
     end
   else if pid <? 0 then
     (* error forking *)
     perror "shh"
   else
     (* parent process *)
     fun w => wait_loop (S (length (w_pending w))) pid None w) ;;
  ret 1.

Definition shh_launch (args : list string) : M Z :=
  let* pid := fork (shh_launch_as 0 args) in
  shh_launch_as pid args.

(** *** [shh_execute] *)

Fixpoint execute_for (fuel : nat) (i : Z) (args : list string)
    (arg0 : string) : M Z :=
  if i <? shh_num_builtins then
    match fuel with
    | O => stop OutOfFuel
    | S fuel =>
        let* name := load builtin_str (Z.to_nat i) in
        if strcmp arg0 name =? 0 then
          let* f := load builtin_func (Z.to_nat i) in
          f args
        else execute_for fuel (i + 1) args arg0
    end
  else shh_launch args.

Definition shh_execute (args : list string) : M Z :=
  let* a0 := arg args 0 in
  match a0 with
  | None => ret 1
  | Some arg0 => execute_for (length builtin_str) 0 args arg0
  end.

(** *** [shh_loop] and [main] *)

Definition prompt : string := "> ".

(** The [do ... while (status)] loop, [fuel] rounds of it at most.  The two
    [free] calls that end a round have no effect the model observes. *)
Fixpoint shh_loop (fuel : nat) : M unit :=
  match fuel with
  | O => stop OutOfFuel
  | S fuel =>
      printf prompt ;;
      let* line := shh_read_line in
      let* (tokens, line) := shh_split_line line in
      let* args :=
        (match load_args line tokens with
         | Some args => ret args
         | None => stop Undefined
         end) in
      let* status := shh_execute args in
      if negb (status =? 0) then shh_loop fuel else ret tt
  end.

Definition main (fuel : nat) : M Z :=
  shh_loop fuel ;;
  ret EXIT_SUCCESS.

End Shell.

(** ** Notions the statements below use *)

Definition newline : ascii := "010"%char.

(** Every request of at most [limit] bytes is granted. *)
Definition enough_memory (env : environment) (limit : Z) : Prop :=
  forall n, n <= limit -> alloc_ok env n = true.

(** A Rocq string that is a C string: it holds no NUL. *)
Definition c_string (s : string) : Prop := NUL ∉ list_ascii_of_string s.

(** The world a computation ends in, however it ends. *)
Definition world_of {A} (r : result A) : world :=
  match r with Ret _ w => w | Halt _ w => w end.

(** A [waitpid] report of a child that is stopped, not terminated. *)
Definition stopped (ev : wait_event) : Prop :=
  exists s, ev = inl s /\ WIFSTOPPED s = true.

(** A terminal state: normal exit, or termination by a signal. *)
Definition terminal (s : wstatus) : Prop :=
  WIFEXITED s = true \/ WIFSIGNALED s = true.

(** What [waitpid] will report about the child of fork number [n] that
    runs [shh_launch]'s child branch: the reports of the program it
    becomes, or its own exit with [EXIT_FAILURE] when [execvp] fails. *)
Definition child_events (env : environment) (n : nat) (cwd : dir)
    (file : string) (args : list string) : list wait_event :=
  match os_execvp env n cwd file args with
  | inl evs => evs
  | inr _ => [inl (WExited EXIT_FAILURE)]
  end.

(** What that child writes to standard error before it exits or becomes
    another program, and the program it runs. *)
Definition child_messages (env : environment) (n : nat) (cwd : dir)
    (file : string) (args : list string) : list string :=
  match os_execvp env n cwd file args with
  | inl _ => []
  | inr e => ["shh: " +:+ os_strerror env e +:+ nl]
  end.

Definition child_image (env : environment) (n : nat) (cwd : dir)
    (file : string) (args : list string) : option (string * list string) :=
  match os_execvp env n cwd file args with
  | inl _ => Some (file, args)
  | inr _ => None
  end.

(** The parent's world when [fork] has returned [pid] to it. *)
Definition after_fork (env : environment) (pid : positive) (file : string)
    (args : list string) (w : world) : world :=
  let n := w_forks w in
  set_pending (child_events env n (w_cwd w) file args)
    (set_children
       (w_children w
        ++ [{| ch_pid := pid; ch_cwd := w_cwd w;
               ch_image := child_image env n (w_cwd w) file args |}])
       (set_stderr (w_stderr w ++ child_messages env n (w_cwd w) file args)
          (set_stdout (w_stdout w) (set_forks (S n) w)))).

(** Everything [shh_help] prints. *)
Definition help_text : list string :=
  [ "AkG's SHH " +:+ nl;
    "Type program names and arguments, and hit enter." +:+ nl;
    "The following are built in:" +:+ nl;
    "    cd" +:+ nl; "    help" +:+ nl; "    exit" +:+ nl;
    "Use the man command for information on other programs." +:+ nl ].

(** ** The tokenizer, in the specification's words *)

Module Spec.

(** The delimiters: space, tab, newline, carriage return and bell. *)
Definition delimiter (c : ascii) : Prop :=
  c = " "%char \/ c = "009"%char \/ c = "010"%char \/ c = "013"%char
  \/ c = "007"%char.

(** [maximal_runs line runs]: [runs] lists, from left to right, the maximal
    runs of characters of [line] that are not delimiters.  Each run is not
    empty, is preceded by delimiters only (since the previous run or the
    start of the line) and is followed by a delimiter or the end of the
    line. *)
Inductive maximal_runs : list ascii -> list (list ascii) -> Prop :=
| no_more_runs (gap : list ascii) :
    Forall delimiter gap ->
    maximal_runs gap []
| next_run (gap run rest : list ascii) (runs : list (list ascii)) :
    Forall delimiter gap ->
    run <> [] ->
    Forall (fun c => ~ delimiter c) run ->
    (forall c, head rest = Some c -> delimiter c) ->
    maximal_runs rest runs ->
    maximal_runs (gap ++ run ++ rest) (run :: runs).

(** Joining tokens with single spaces. *)
Definition join (tokens : list string) : string := String.concat " " tokens.

(** A token as the round trip takes them: not empty, without delimiters,
    and, being a C string, without NUL. *)
Definition plain (t : string) : Prop :=
  t <> EmptyString
  /\ Forall (fun c => ~ delimiter c /\ c <> NUL) (list_ascii_of_string t).

End Spec.

(** ** Sample environments and inputs *)

Module Sample.

(** An environment with an unlimited heap, a directory [/tmp] besides the
    root, and one program, [ls], which is stopped once and then exits. *)
Definition env : environment :=
  {| alloc_ok := fun _ => true;
     junk_char := fun _ => "x"%char;
     junk_ptr := fun _ => Some 77%nat;
     os_chdir := fun _ p =>
       if decide (p = "/tmp"%string) then inl p else inr 2;
     os_strerror := fun _ => "No such file or directory"%string;
     os_fork := fun n => inl (Pos.of_succ_nat n);
     os_execvp := fun _ _ file _ =>
       if decide (file = "ls"%string)
       then inl [inl (WStopped 19); inl (WExited 0)]
       else inr 2 |}.

Definition world_reading (input : string) : world :=
  {| w_cwd := "/"; w_stdin := list_ascii_of_string input;
     w_stdout := []; w_stderr := []; w_errno := 0;
     w_children := []; w_forks := 0; w_waits := 0; w_pending := [] |}.

End Sample.

(** ** Notions of the further properties *)

(** The ways the interpreter process itself may stop without returning from
    [main]: after an allocation error it has just reported, by waiting for
    ever, or by leaving defined behaviour; never by being replaced. *)
Definition interpreter_halt (h : halt) (w : world) : Prop :=
  match h with
  | Exited code =>
      code = EXIT_FAILURE /\ last (w_stderr w) = Some allocation_error
  | Replaced _ _ => False
  | Blocked | OutOfFuel | Undefined => True
  end.

(** The ways a command may keep [shh_execute] from returning. *)
Definition command_halt (h : halt) : Prop :=
  match h with
  | Exited _ | Replaced _ _ => False
  | Blocked | OutOfFuel | Undefined => True
  end.

(** [overwritten line line']: [line'] is [line] with some delimiters
    replaced by NUL, and nothing else changed. *)
Definition overwritten (line line' : list ascii) : Prop :=
  length line' = length line
  /\ forall i c',
       line' !! i = Some c' ->
       line !! i = Some c'
       \/ (c' = NUL /\ exists c, line !! i = Some c /\ Spec.delimiter c).

(** The largest buffer size an [int] holds, sizes being multiples of 1024:
    [INT_MAX - 1023]. *)
Definition line_limit : Z := 2147482624.

(** The lines [shh_help] prints between its heading and its last line. *)
Definition help_entry (name : string) : string := "    " +:+ name +:+ nl.

Module LongLine.

(** A line of [line_limit] characters, never evaluated. *)
Definition input : list ascii := replicate (Z.to_nat line_limit) "a"%char.

Definition start : world :=
  {| w_cwd := "/"; w_stdin := input ++ [];
     w_stdout := []; w_stderr := []; w_errno := 0;
     w_children := []; w_forks := 0; w_waits := 0; w_pending := [] |}.

End LongLine.

Module Demo.

(** The line [ls -l] in a block, and what [shh_split_line] makes of it in
    the sample environment. *)
Definition line : list ascii := list_ascii_of_string "ls -l" ++ [NUL].

Definition split : list (option nat) * list ascii :=
  match shh_split_line Sample.env line (Sample.world_reading "") with
  | Ret r _ => r
  | Halt _ _ => ([], [])
  end.

(** A world whose unread input is the given characters. *)
Definition reading (input : list ascii) : world :=
  set_stdin input (Sample.world_reading "").

End Demo.

Module SmallHeap.

(** An environment whose allocator grants 1024 bytes and no more; nothing
    else succeeds either. *)
Definition env : environment :=
  {| alloc_ok := fun n => n <=? 1024;
     junk_char := fun _ => "?"%char;
     junk_ptr := fun _ => None;
     os_chdir := fun _ _ => inr 2;
     os_strerror := fun _ => "No such file or directory"%string;
     os_fork := fun _ => inr 11;
     os_execvp := fun _ _ _ _ => inr 2 |}.

End SmallHeap.

Module ManyTokens.

(** An environment whose allocator grants the first token array, of 1024
    pointers, and nothing larger. *)
Definition env : environment :=
  {| alloc_ok := fun n => n <=? sizeof_ptr * SHH_TOK_BUFSIZE;
     junk_char := fun _ => "?"%char;
     junk_ptr := fun _ => None;
     os_chdir := fun _ _ => inr 2;
     os_strerror := fun _ => "No such file or directory"%string;
     os_fork := fun _ => inr 11;
     os_execvp := fun _ _ _ _ => inr 2 |}.

(** A line of [n] one-letter tokens, each followed by a space. *)
Fixpoint letters (n : nat) : list ascii :=
  match n with
  | O => []
  | S n => "a"%char :: " "%char :: letters n
  end.

End ManyTokens.

Module Interrupted.

(** An environment in which the first [waitpid] call for a child fails
    (errno 4, an interrupted call) before the child's exit is reported. *)
Definition env : environment :=
  {| alloc_ok := fun _ => true;
     junk_char := fun _ => "x"%char;
     junk_ptr := fun _ => None;
     os_chdir := fun _ _ => inr 2;
     os_strerror := fun _ => "Interrupted system call"%string;
     os_fork := fun n => inl (Pos.of_succ_nat n);
     os_execvp := fun _ _ _ _ => inl [inr 4; inl (WExited 0)] |}.

End Interrupted.

(** ** Reading lines: [shh_read_line] *)

Lemma world_eta_stdin w : set_stdin (w_stdin w) w = w.
Proof. by destruct w. Qed.

Lemma int_of_char_range c : 0 <= int_of_char c < 256.
Proof.
  unfold int_of_char. pose proof (N_ascii_bounded c) as H. lia.
Qed.

Lemma char_of_int_of_char c : char_of_int (int_of_char c) = c.
Proof.
  unfold char_of_int. pose proof (int_of_char_range c) as H.
  rewrite Z.mod_small by lia. unfold int_of_char.
  by rewrite N2Z.id, ascii_N_embedding.
Qed.

Lemma int_of_char_inj c d : int_of_char c = int_of_char d -> c = d.
Proof.
  intros H. rewrite <- (char_of_int_of_char c), <- (char_of_int_of_char d).
  by rewrite H.
Qed.

Lemma store_in_range {A} (block : list A) (i : Z) (x : A) w :
  0 <= i < Z.of_nat (length block) ->
  store block i x w = Ret (<[Z.to_nat i := x]> block) w.
Proof.
  intros H. unfold store.
  destruct (0 <=? i) eqn:E1; [|lia]. destruct (i <? _) eqn:E2; [|lia]. done.
Qed.

Lemma insert_as_take {A} (l : list A) (i : nat) (x : A) :
  (i < length l)%nat -> <[i := x]> l = take i l ++ x :: drop (S i) l.
Proof. intros H. by rewrite insert_take_drop. Qed.

Section ReadLine.

Variable env : environment.

Lemma read_line_loop_spec (chars : list ascii) :
  forall fuel buffer bufsize pos w rest,
    newline ∉ chars ->
    rest = [] \/ head rest = Some newline ->
    w_stdin w = chars ++ rest ->
    (length chars < fuel)%nat ->
    0 <= pos < bufsize ->
    Z.of_nat (length buffer) = bufsize ->
    bufsize <= pos + SHH_RL_BUFSIZE ->
    pos + Z.of_nat (length chars) + SHH_RL_BUFSIZE <= INT_MAX ->
    enough_memory env (pos + Z.of_nat (length chars) + SHH_RL_BUFSIZE) ->
    exists junk,
      read_line_loop env fuel buffer bufsize pos w
      = Ret (take (Z.to_nat pos) buffer ++ chars ++ NUL :: junk)
            (set_stdin (List.tl rest) w).
Proof.
  induction chars as [|c chars IH];
    intros fuel buffer bufsize pos w rest Hnl Hrest Hin Hfuel Hpos Hlen Hcap
           Hmax Hmem.
  - destruct fuel as [|fuel]; [simpl in Hfuel; lia|].
    simpl in Hin. exists (drop (S (Z.to_nat pos)) buffer).
    cbn [read_line_loop]. unfold bind, getchar. rewrite Hin.
    destruct Hrest as [-> | Hhd].
    + cbn. rewrite store_in_range by lia. cbn.
      rewrite insert_as_take by lia. f_equal.
      rewrite <- Hin at 1. by rewrite world_eta_stdin.
    + destruct rest as [|d rest]; [done|]. injection Hhd as ->.
      change ((int_of_char newline =? EOF)
              || (int_of_char newline =? int_of_char "010")) with true.
      cbn. rewrite store_in_range by lia. cbn.
      by rewrite insert_as_take by lia.
  - destruct fuel as [|fuel]; [simpl in Hfuel; lia|].
    simpl in Hin, Hfuel.
    apply not_elem_of_cons in Hnl as [Hc Hnl].
    rewrite length_cons in Hmax, Hmem.
    set (buffer1 := <[Z.to_nat pos := c]> buffer).
    assert (length buffer1 = length buffer) as Hlen1 by apply length_insert.
    assert (take (Z.to_nat (pos + 1)) buffer1 = take (Z.to_nat pos) buffer ++ [c])
      as Htake.
    { unfold buffer1. rewrite insert_as_take by lia.
      replace (Z.to_nat (pos + 1)) with (length (take (Z.to_nat pos) buffer) + 1)%nat
        by (rewrite length_take; lia).
      rewrite take_app_add'; [|done]. done. }
    assert (read_line_loop env (S fuel) buffer bufsize pos w
      = (if pos + 1 >=? bufsize then
           bind (int_add bufsize SHH_RL_BUFSIZE) (fun bufsize =>
             match realloc env (junk_char env) buffer1 1 bufsize with
             | None => bind (fprintf_stderr allocation_error)
                            (fun _ => exit EXIT_FAILURE)
             | Some buffer => read_line_loop env fuel buffer bufsize (pos + 1)
             end)
         else read_line_loop env fuel buffer1 bufsize (pos + 1))
          (set_stdin (chars ++ rest) w)) as Hstep.
    { cbn [read_line_loop]. unfold bind at 1, getchar. rewrite Hin.
      assert ((int_of_char c =? EOF) = false) as ->.
      { pose proof (int_of_char_range c). unfold EOF. lia. }
      assert ((int_of_char c =? int_of_char "010") = false) as ->.
      { apply Z.eqb_neq. intros E. apply int_of_char_inj in E. by subst c. }
      cbn [orb]. unfold bind at 1. rewrite store_in_range by lia.
      by rewrite char_of_int_of_char. }
    rewrite Hstep. clear Hstep.
    unfold SHH_RL_BUFSIZE in *.
    destruct (pos + 1 >=? bufsize) eqn:Egrow.
    + set (buffer2 := buffer1 ++ (junk_char env <$> seq (length buffer1) 1024)).
      destruct (IH fuel buffer2 (bufsize + 1024) (pos + 1)
                  (set_stdin (chars ++ rest) w) rest) as [junk Hrun];
        try done; try lia.
      { unfold buffer2. rewrite length_app, length_fmap, length_seq. lia. }
      { intros n Hn. apply Hmem. lia. }
      exists junk.
      unfold bind at 1, int_add.
      destruct (bufsize + 1024 <=? INT_MAX) eqn:Eov; [|lia].
      unfold ret at 1. unfold realloc.
      rewrite Hmem by lia.
      rewrite take_ge by lia.
      match goal with
      | |- context [seq _ ?n] => replace n with 1024%nat by lia
      end.
      fold buffer2. rewrite Hrun. f_equal.
      unfold buffer2. rewrite take_app_le by lia.
      rewrite Htake. by rewrite <- app_assoc.
    + destruct (IH fuel buffer1 bufsize (pos + 1)
                  (set_stdin (chars ++ rest) w) rest) as [junk Hrun];
        try done; try lia.
      { intros n Hn. apply Hmem. lia. }
      exists junk. rewrite Hrun. f_equal.
      rewrite Htake. by rewrite <- app_assoc.
Qed.

Lemma cstring_terminated (chars junk : list ascii) :
  NUL ∉ chars ->
  cstring (chars ++ NUL :: junk) = Some (string_of_list_ascii chars).
Proof.
  induction chars as [|c chars IH]; intros Hnul; cbn [app cstring].
  - by case_decide.
  - apply not_elem_of_cons in Hnul as [Hc Hnul].
    case_decide; [done|]. by rewrite IH.
Qed.

(** C8: [shh_read_line] consumes the input one character at a time up to
    and including the first newline, or up to the end of the stream, and
    returns a block that holds exactly the characters read before that
    point followed by the terminating NUL; at the end of the stream with
    nothing read the block starts with the NUL, so the line is empty.  The
    block denotes those characters as a C string when none of them is NUL.
    This holds when the allocator grants the buffer and the line is short
    enough for the [int] buffer size. *)
Theorem shh_read_line_returns_the_line (w : world) (chars rest : list ascii) :
  w_stdin w = chars ++ rest ->
  newline ∉ chars ->
  rest = [] \/ head rest = Some newline ->
  Z.of_nat (length chars) + SHH_RL_BUFSIZE <= INT_MAX ->
  enough_memory env (Z.of_nat (length chars) + SHH_RL_BUFSIZE) ->
  exists junk,
    shh_read_line env w = Ret (chars ++ NUL :: junk) (set_stdin (tail rest) w)
    /\ (NUL ∉ chars ->
        cstring_at (chars ++ NUL :: junk) 0
        = Some (string_of_list_ascii chars)).
Proof.
  intros Hin Hnl Hrest Hmax Hmem.
  unfold shh_read_line, malloc. rewrite Hmem by (unfold SHH_RL_BUFSIZE; lia).
  set (buffer := junk_char env <$> _).
  assert (Z.of_nat (length buffer) = SHH_RL_BUFSIZE) as Hlen.
  { unfold buffer. by rewrite length_fmap, length_seq. }
  assert (length chars < S (length (w_stdin w)))%nat as Hfuel.
  { rewrite Hin, length_app. lia. }
  destruct (read_line_loop_spec chars (S (length (w_stdin w))) buffer
              SHH_RL_BUFSIZE 0 w rest) as [junk Hrun]; try done.
  exists junk. split; [done|].
  intros Hnul. unfold cstring_at. rewrite drop_0.
  by apply cstring_terminated.
Qed.

End ReadLine.

Ltac not_in_list :=
  let H := fresh in
  intros H;
  repeat (apply elem_of_cons in H as [H|H]; [discriminate H|]);
  by apply elem_of_nil in H.

Lemma sample_memory limit : enough_memory Sample.env limit.
Proof. by intros n _. Qed.

Lemma shh_read_line_returns_the_line_witness :
  exists junk,
    shh_read_line Sample.env (Sample.world_reading ("ls -l" +:+ nl +:+ "cd"))
    = Ret (list_ascii_of_string "ls -l" ++ NUL :: junk)
          (set_stdin (list_ascii_of_string "cd")
             (Sample.world_reading ("ls -l" +:+ nl +:+ "cd")))
    /\ (NUL ∉ list_ascii_of_string "ls -l" ->
        cstring_at (list_ascii_of_string "ls -l" ++ NUL :: junk) 0
        = Some (string_of_list_ascii (list_ascii_of_string "ls -l"))).
Proof.
  apply (shh_read_line_returns_the_line Sample.env
           (Sample.world_reading ("ls -l" +:+ nl +:+ "cd"))
           (list_ascii_of_string "ls -l")
           (newline :: list_ascii_of_string "cd")).
  - reflexivity.
  - simpl. not_in_list.
  - right. reflexivity.
  - vm_compute. discriminate.
  - apply sample_memory.
Defined.

(** ** Splitting lines: [strtok] and [shh_split_line] *)

Lemma in_set_delimiter c : in_set c SHH_TOK_DELIM = true <-> Spec.delimiter c.
Proof.
  unfold in_set, Spec.delimiter. rewrite bool_decide_eq_true. simpl.
  rewrite !elem_of_cons, elem_of_nil. tauto.
Qed.

Lemma in_set_not_delimiter c :
  in_set c SHH_TOK_DELIM = false <-> ~ Spec.delimiter c.
Proof.
  rewrite <- in_set_delimiter. by destruct (in_set c SHH_TOK_DELIM).
Qed.

Lemma delimiter_not_NUL c : Spec.delimiter c -> c <> NUL.
Proof.
  unfold Spec.delimiter. intros H ->.
  repeat (destruct H as [H|H]; [discriminate H|]). discriminate H.
Qed.

Lemma strspn_gap (gap l : list ascii) :
  Forall Spec.delimiter gap ->
  strspn (gap ++ l) SHH_TOK_DELIM
  = (length gap + strspn l SHH_TOK_DELIM)%nat.
Proof.
  induction 1 as [|c gap Hc _ IH]; [done|].
  cbn [app strspn length]. rewrite decide_False by by apply delimiter_not_NUL.
  apply in_set_delimiter in Hc as ->. by rewrite IH.
Qed.

Lemma strspn_stops (c : ascii) (l : list ascii) :
  c = NUL \/ ~ Spec.delimiter c ->
  strspn (c :: l) SHH_TOK_DELIM = O.
Proof.
  intros [-> | Hc]; cbn [strspn]; [done|].
  case_decide; [done|]. by apply in_set_not_delimiter in Hc as ->.
Qed.

Lemma strcspn_run (run l : list ascii) :
  Forall (fun c => ~ Spec.delimiter c) run ->
  NUL ∉ run ->
  strcspn (run ++ l) SHH_TOK_DELIM
  = (length run + strcspn l SHH_TOK_DELIM)%nat.
Proof.
  induction 1 as [|c run Hc _ IH]; intros Hnul; [done|].
  apply not_elem_of_cons in Hnul as [Hc0 Hnul].
  cbn [app strcspn length]. rewrite decide_False by done.
  apply in_set_not_delimiter in Hc as ->. by rewrite IH.
Qed.

Lemma strcspn_stops (c : ascii) (l : list ascii) :
  c = NUL \/ Spec.delimiter c ->
  strcspn (c :: l) SHH_TOK_DELIM = O.
Proof.
  intros [-> | Hc]; cbn [strcspn]; [done|].
  case_decide; [done|]. by apply in_set_delimiter in Hc as ->.
Qed.

Lemma strtok_no_token (pre gap post : list ascii) save str w :
  Forall Spec.delimiter gap ->
  default save str = length pre ->
  strtok (pre ++ gap ++ NUL :: post) save str SHH_TOK_DELIM w
  = Ret (None, pre ++ gap ++ NUL :: post, (length pre + length gap)%nat) w.
Proof.
  intros Hgap Hs. unfold strtok. rewrite Hs, drop_app_length.
  rewrite strspn_gap, strspn_stops by auto.
  rewrite Nat.add_0_r.
  unfold bind, load.
  rewrite (app_assoc pre gap), (list_lookup_middle _ _ _ (length pre + length gap))
    by by rewrite length_app.
  unfold ret. by rewrite decide_True.
Qed.

Lemma strtok_token (pre gap run rest post : list ascii) save str w :
  Forall Spec.delimiter gap ->
  run <> [] ->
  Forall (fun c => ~ Spec.delimiter c) run ->
  NUL ∉ run ->
  (forall c, head rest = Some c -> Spec.delimiter c) ->
  default save str = length pre ->
  strtok (pre ++ gap ++ run ++ rest ++ NUL :: post) save str SHH_TOK_DELIM w
  = Ret (Some (length pre + length gap)%nat,
         pre ++ gap ++ run ++ NUL :: tail (rest ++ NUL :: post),
         (length pre + length gap + length run + Nat.min (length rest) 1)%nat) w.
Proof.
  intros Hgap Hne Hrun Hnul Hrest Hs. unfold strtok.
  rewrite Hs, drop_app_length.
  set (p := (length pre + length gap)%nat).
  assert (exists x tl, rest ++ NUL :: post = x :: tl
                       /\ (x = NUL \/ Spec.delimiter x)
                       /\ (x = NUL -> rest = [])
                       /\ (x <> NUL -> length rest <> O))
    as (x & tl & -> & Hx & Hx0 & Hx1).
  { destruct rest as [|d rest]; simpl.
    - exists NUL, post. split_and!; auto; done.
    - exists d, (rest ++ NUL :: post).
      split; [done|]. split; [right; by apply Hrest|].
      split; [|done]. intros ->.
      by destruct (delimiter_not_NUL NUL); [apply Hrest|]. }
  assert (exists c, (pre ++ gap ++ run ++ x :: tl) !! p = Some c /\ c <> NUL
                    /\ strspn (run ++ x :: tl) SHH_TOK_DELIM = O)
    as (c & Hfirst & Hc0 & Hstop).
  { destruct run as [|c run]; [done|]. exists c.
    apply Forall_cons in Hrun as [Hc _].
    apply not_elem_of_cons in Hnul as [Hc0 _].
    split; [|split; [done|]].
    - rewrite app_assoc. apply list_lookup_middle. by rewrite length_app.
    - apply strspn_stops. auto. }
  rewrite strspn_gap, Hstop, Nat.add_0_r by done. fold p.
  unfold bind at 1, load at 1. rewrite Hfirst.
  unfold ret at 1. rewrite decide_False by done.
  assert (drop p (pre ++ gap ++ run ++ x :: tl) = run ++ x :: tl) as ->.
  { rewrite app_assoc. apply drop_app_length'. by rewrite length_app. }
  rewrite strcspn_run, strcspn_stops, Nat.add_0_r by done.
  assert ((pre ++ gap ++ run ++ x :: tl) !! (p + length run)%nat = Some x)
    as Hlook.
  { rewrite !app_assoc. apply list_lookup_middle.
    rewrite !length_app. unfold p. lia. }
  unfold bind, load. rewrite Hlook. unfold ret.
  destruct (decide (x = NUL)) as [-> | Hnz].
  - rewrite (Hx0 eq_refl). cbn [tail length]. by rewrite Nat.add_0_r.
  - specialize (Hx1 Hnz). cbn [tail]. f_equal. f_equal; [f_equal|].
    + rewrite !app_assoc.
      rewrite insert_app_r_alt by (rewrite !length_app; unfold p; lia).
      replace (p + length run - length ((pre ++ gap) ++ run))%nat
        with O by (rewrite !length_app; unfold p; lia).
      done.
    + lia.
Qed.

Lemma maximal_runs_nil (runs : list (list ascii)) :
  Spec.maximal_runs [] runs -> runs = [].
Proof.
  intros H. remember [] as l eqn:El.
  destruct H as [gap Hgap | gap run rest runs' Hgap Hne Hrun Hrest Hsub];
    [done|].
  destruct run; [done|]. destruct gap; discriminate El.
Qed.

Lemma maximal_runs_skip (d : ascii) (l : list ascii)
    (runs : list (list ascii)) :
  Spec.delimiter d ->
  Spec.maximal_runs (d :: l) runs ->
  Spec.maximal_runs l runs.
Proof.
  intros Hd H. remember (d :: l) as dl eqn:El.
  destruct H as [gap Hgap | gap run rest runs' Hgap Hne Hrun Hrest Hsub].
  - subst gap. apply Forall_cons in Hgap as [_ Hgap]. by constructor.
  - destruct gap as [|g gap].
    + destruct run as [|c run]; [done|].
      simpl in El. injection El as -> _.
      by apply Forall_cons in Hrun as [Hc _].
    + simpl in El. injection El as -> <-.
      apply Forall_cons in Hgap as [_ Hgap]. by constructor.
Qed.

Lemma token_in_line (line before run : list ascii) :
  take (S (length (before ++ run))) line = before ++ run ++ [NUL] ->
  NUL ∉ run ->
  cstring_at line (length before) = Some (string_of_list_ascii run).
Proof.
  intros Htake Hnul. unfold cstring_at.
  rewrite <- (take_drop (S (length (before ++ run))) line), Htake.
  rewrite <- !app_assoc, drop_app_length. cbn [app].
  by apply cstring_terminated.
Qed.

Section SplitLine.

Variable env : environment.

(** Making room for the next token: the array keeps its entries, and the
    next position is again inside it. *)
Lemma tokens_grow (tokens : list (option nat)) (bufsize pos : Z) (w : world) :
  Z.of_nat (length tokens) = bufsize ->
  0 <= pos < bufsize ->
  bufsize <= pos + SHH_TOK_BUFSIZE ->
  pos + 1 + SHH_TOK_BUFSIZE <= INT_MAX ->
  enough_memory env (sizeof_ptr * (pos + 1 + SHH_TOK_BUFSIZE)) ->
  exists tokens' bufsize',
    (if pos + 1 >=? bufsize then
       let* bufsize := int_add bufsize SHH_TOK_BUFSIZE in
       match realloc env (junk_ptr env) tokens sizeof_ptr bufsize with
       | None => (fprintf_stderr allocation_error ;; exit EXIT_FAILURE)
       | Some tokens => ret (tokens, bufsize)
       end
     else ret (tokens, bufsize)) w
    = Ret (tokens', bufsize') w
    /\ take (Z.to_nat (pos + 1)) tokens' = take (Z.to_nat (pos + 1)) tokens
    /\ Z.of_nat (length tokens') = bufsize'
    /\ pos + 1 < bufsize' <= pos + 1 + SHH_TOK_BUFSIZE.
Proof.
  intros Hlen Hpos Hcap Hmax Hmem. unfold SHH_TOK_BUFSIZE, sizeof_ptr in *.
  destruct (pos + 1 >=? bufsize) eqn:Egrow.
  - exists (tokens ++ (junk_ptr env <$> seq (length tokens) 1024)),
           (bufsize + 1024).
    split; [|split_and!].
    + unfold bind, int_add.
      destruct (bufsize + 1024 <=? INT_MAX) eqn:Eov; [|lia].
      unfold ret at 1. unfold realloc. rewrite Hmem by lia.
      rewrite take_ge by lia.
      match goal with
      | |- context [seq _ ?n] => replace n with 1024%nat by lia
      end.
      done.
    + by rewrite take_app_le by lia.
    + rewrite length_app, length_fmap, length_seq. lia.
    + lia.
    + lia.
  - exists tokens, bufsize. split_and!; try done; lia.
Qed.

(** The loop invariant, stated for one [strtok] call followed by the loop
    it feeds.  The block is [pre ++ l ++ NUL :: post]: [pre] has been
    scanned already, [l] is the unscanned rest of the line. *)
Lemma split_line_loop_spec (runs : list (list ascii)) :
  forall (l pre post : list ascii) fuel save str tokens bufsize pos w,
    Spec.maximal_runs l runs ->
    NUL ∉ l ->
    default save str = length pre ->
    (length l <= fuel)%nat ->
    0 <= pos < bufsize ->
    Z.of_nat (length tokens) = bufsize ->
    bufsize <= pos + SHH_TOK_BUFSIZE ->
    pos + Z.of_nat (length runs) + SHH_TOK_BUFSIZE <= INT_MAX ->
    enough_memory env
      (sizeof_ptr * (pos + Z.of_nat (length runs) + SHH_TOK_BUFSIZE)) ->
    exists tokens' line',
      (let* (token, line, save) :=
         strtok (pre ++ l ++ NUL :: post) save str SHH_TOK_DELIM in
       split_line_loop env fuel line save tokens bufsize pos token) w
      = Ret (tokens', line') w
      /\ take (Z.to_nat pos) tokens' = take (Z.to_nat pos) tokens
      /\ take (length pre) line' = pre
      /\ line' !! (length pre + length l)%nat = Some NUL
      /\ load_args line' (drop (Z.to_nat pos) tokens')
         = Some (string_of_list_ascii <$> runs).
Proof.
  induction runs as [|run runs IH];
    intros l pre post fuel save str tokens bufsize pos w Hruns Hnul Hs Hfuel
           Hpos Hlen Hcap Hmax Hmem.
  - (* no token left: the null marker is stored *)
    remember [] as none eqn:Enone.
    destruct Hruns as [gap Hgap|]; [|done].
    exists (<[Z.to_nat pos := None]> tokens), (pre ++ gap ++ NUL :: post).
    split_and!.
    + unfold bind at 1. rewrite strtok_no_token by done.
      destruct fuel; cbn [split_line_loop]; unfold bind;
        by rewrite store_in_range by lia.
    + by rewrite take_insert_ge by lia.
    + by rewrite take_app_length.
    + rewrite app_assoc. apply list_lookup_middle. by rewrite length_app.
    + rewrite insert_as_take, drop_app_length' by (rewrite ?length_take; lia).
      done.
  - (* one more token *)
    remember (run :: runs) as some eqn:Esome.
    destruct Hruns as [|gap run' rest runs' Hgap Hne Hrun Hrest Hsub];
      [done|].
    injection Esome as -> ->.
    apply not_elem_of_app in Hnul as [Hnul_gap Hnul].
    apply not_elem_of_app in Hnul as [Hnul_run Hnul_rest].
    rewrite !length_app in Hfuel. rewrite length_cons in Hmax, Hmem.
    assert (length run <> O) as Hrun_len by by destruct run.
    destruct fuel as [|fuel]; [lia|].
    set (p := (length pre + length gap)%nat).
    set (tokens1 := <[Z.to_nat pos := Some p]> tokens).
    (* the block after this [strtok] call: what has been scanned, and
       what is left *)
    assert (exists pre1 l1,
               pre ++ gap ++ run ++ NUL :: tail (rest ++ NUL :: post)
               = pre1 ++ l1 ++ NUL :: post
               /\ length pre1
                  = (length pre + length gap + length run
                     + Nat.min (length rest) 1)%nat
               /\ Spec.maximal_runs l1 runs
               /\ (NUL ∉ l1)
               /\ (length l1 <= length rest)%nat
               /\ (length pre1 + length l1
                   = length pre + length (gap ++ run ++ rest))%nat
               /\ take (length pre) pre1 = pre
               /\ forall line' : list ascii,
                   take (length pre1) line' = pre1 ->
                   line' !! (length pre1 + length l1)%nat = Some NUL ->
                   take (S (length ((pre ++ gap) ++ run))) line'
                   = (pre ++ gap) ++ run ++ [NUL])
      as (pre1 & l1 & Hblock & Hsave & Hruns1 & Hnul1 & Hshorter & Hend
          & Hpre1 & Htoken).
    { destruct rest as [|d rest].
      - exists (pre ++ gap ++ run), [].
        split_and!; [| |done|apply not_elem_of_nil|done| | |].
        + simpl. by rewrite <- !app_assoc.
        + rewrite !length_app. simpl. lia.
        + rewrite !length_app. simpl. lia.
        + by rewrite take_app_length.
        + intros line' Htake Hlook. rewrite Nat.add_0_r in Hlook.
          rewrite <- app_assoc in *.
          rewrite (take_S_r _ _ NUL) by done.
          by rewrite Htake, <- !app_assoc.
      - exists (pre ++ gap ++ run ++ [NUL]), rest.
        apply not_elem_of_cons in Hnul_rest as [_ Hnul_rest].
        split_and!; [| | |done| | | |].
        + simpl. by rewrite <- !app_assoc.
        + rewrite !length_app. simpl. lia.
        + apply (maximal_runs_skip d); [by apply Hrest|done].
        + simpl. lia.
        + rewrite !length_app. simpl. lia.
        + by rewrite take_app_length.
        + intros line' Htake _.
          replace (S (length ((pre ++ gap) ++ run)))
            with (length (pre ++ gap ++ run ++ [NUL]))
            by (rewrite !length_app; simpl; lia).
          by rewrite Htake, <- !app_assoc. }
    (* room for the token, then the rest of the loop *)
    destruct (tokens_grow tokens1 bufsize pos w)
      as (tokens2 & bufsize2 & Hgrow & Htake2 & Hlen2 & Hcap2);
      [by (unfold tokens1; rewrite length_insert)|done|done|lia| |].
    { intros n Hn. apply Hmem. unfold sizeof_ptr in *. lia. }
    destruct (IH l1 pre1 post fuel (length pre1) None tokens2 bufsize2
                (pos + 1) w)
      as (tokens' & line' & Hrun' & Htk & Hpre' & Hnul' & Hargs);
      [done|done|done|lia|lia|done|lia|lia| |].
    { intros n Hn. apply Hmem. unfold sizeof_ptr in *. lia. }
    assert (tokens' !! Z.to_nat pos = Some (Some p)) as Hentry.
    { rewrite <- (lookup_take_lt tokens' (Z.to_nat (pos + 1))) by lia.
      rewrite Htk, Htake2, lookup_take_lt by lia.
      unfold tokens1. apply list_lookup_insert_eq. lia. }
    exists tokens', line'. split_and!.
    + unfold bind at 1. rewrite <- !app_assoc.
      rewrite strtok_token by done.
      rewrite Hblock, <- Hsave. cbn [split_line_loop].
      unfold bind at 1. rewrite store_in_range by lia.
      fold p tokens1. unfold bind at 1. rewrite Hgrow.
      exact Hrun'.
    + apply (f_equal (take (Z.to_nat pos))) in Htk.
      rewrite !take_take in Htk.
      replace (Z.to_nat pos `min` Z.to_nat (pos + 1))%nat
        with (Z.to_nat pos) in Htk by lia.
      rewrite Htk.
      apply (f_equal (take (Z.to_nat pos))) in Htake2.
      rewrite !take_take in Htake2.
      replace (Z.to_nat pos `min` Z.to_nat (pos + 1))%nat
        with (Z.to_nat pos) in Htake2 by lia.
      rewrite Htake2. unfold tokens1. by rewrite take_insert_ge by lia.
    + apply (f_equal (take (length pre))) in Hpre'.
      rewrite take_take in Hpre'.
      assert (length pre <= length pre1)%nat.
      { rewrite <- Hpre1 at 1. rewrite length_take. lia. }
      replace (length pre `min` length pre1)%nat with (length pre)
        in Hpre' by lia.
      by rewrite Hpre', Hpre1.
    + by rewrite <- Hend.
    + rewrite (drop_S _ _ _ Hentry). cbn [load_args].
      replace (S (Z.to_nat pos)) with (Z.to_nat (pos + 1)) by lia.
      rewrite Hargs.
      assert (p = length (pre ++ gap)) as -> by by rewrite length_app.
      rewrite (token_in_line line' (pre ++ gap) run); [done| |done].
      by apply Htoken.
Qed.

(** What [shh_split_line] returns for a line whose maximal runs are
    [runs]; the bounds are on the number of tokens. *)
Lemma shh_split_line_spec (l post : list ascii) (runs : list (list ascii))
    (w : world) :
  Spec.maximal_runs l runs ->
  NUL ∉ l ->
  Z.of_nat (length runs) + SHH_TOK_BUFSIZE <= INT_MAX ->
  enough_memory env (sizeof_ptr * (Z.of_nat (length runs) + SHH_TOK_BUFSIZE)) ->
  exists tokens line',
    shh_split_line env (l ++ NUL :: post) w = Ret (tokens, line') w
    /\ load_args line' tokens = Some (string_of_list_ascii <$> runs).
Proof.
  intros Hruns Hnul Hmax Hmem.
  unfold shh_split_line, malloc.
  rewrite Hmem by (unfold sizeof_ptr, SHH_TOK_BUFSIZE in *; lia).
  set (tokens0 := junk_ptr env <$> _).
  assert (Z.of_nat (length tokens0) = SHH_TOK_BUFSIZE) as Hlen.
  { unfold tokens0. by rewrite length_fmap, length_seq. }
  assert (length l <= length (l ++ NUL :: post))%nat as Hfuel.
  { rewrite length_app. lia. }
  destruct (split_line_loop_spec runs l [] post (length (l ++ NUL :: post))
              O (Some O) tokens0 SHH_TOK_BUFSIZE 0 w)
    as (tokens & line' & Hrun & _ & _ & _ & Hargs); try done.
  exists tokens, line'. split; [exact Hrun|]. by rewrite drop_0 in Hargs.
Qed.

Lemma maximal_runs_prepend (d : ascii) (l : list ascii)
    (runs : list (list ascii)) :
  Spec.delimiter d ->
  Spec.maximal_runs l runs ->
  Spec.maximal_runs (d :: l) runs.
Proof.
  intros Hd [gap Hgap | gap run rest runs' Hgap Hne Hrun Hrest Hsub].
  - constructor. by constructor.
  - apply (Spec.next_run (d :: gap)); try done. by constructor.
Qed.

Lemma maximal_runs_extend (c : ascii) (l : list ascii)
    (runs : list (list ascii)) :
  ~ Spec.delimiter c ->
  Spec.maximal_runs l runs ->
  exists runs', Spec.maximal_runs (c :: l) runs'.
Proof.
  intros Hc [gap Hgap | gap run rest runs' Hgap Hne Hrun Hrest Hsub].
  - exists [[c]].
    apply (Spec.next_run [] [c] gap []); try done.
    + by repeat constructor.
    + intros d Hd. destruct Hgap; [done|]. by injection Hd as <-.
    + by constructor.
  - destruct gap as [|g gap].
    + exists ((c :: run) :: runs').
      apply (Spec.next_run [] (c :: run) rest runs'); try done.
      by constructor.
    + exists ([c] :: run :: runs').
      apply (Spec.next_run [] [c] ((g :: gap) ++ run ++ rest) (run :: runs'));
        try done.
      * by repeat constructor.
      * intros d Hd. injection Hd as <-. by apply Forall_cons in Hgap as [].
      * by constructor.
Qed.

Lemma span_unique {A} (P : A -> Prop) (g g' x x' : list A) :
  Forall P g -> Forall P g' ->
  (forall a, head x = Some a -> ~ P a) ->
  (forall a, head x' = Some a -> ~ P a) ->
  g ++ x = g' ++ x' ->
  g = g' /\ x = x'.
Proof.
  intros Hg. revert g'.
  induction Hg as [|a g Ha Hg IH]; intros [|a' g'] Hg' Hx Hx' Heq;
    simpl in Heq.
  - done.
  - subst x. apply Forall_cons in Hg' as [Ha' _]. by destruct (Hx a').
  - subst x'. by destruct (Hx' a).
  - injection Heq as <- Heq. apply Forall_cons in Hg' as [_ Hg'].
    destruct (IH g' Hg' Hx Hx' Heq) as [-> ->]. done.
Qed.

(** The maximal runs of a line are determined by the line. *)
Lemma maximal_runs_unique (l : list ascii) (runs1 runs2 : list (list ascii)) :
  Spec.maximal_runs l runs1 -> Spec.maximal_runs l runs2 -> runs1 = runs2.
Proof.
  intros H1. revert runs2.
  induction H1 as [gap Hgap | gap run rest runs Hgap Hne Hrun Hrest Hsub IH];
    intros runs2 H2.
  - remember gap as l eqn:El.
    destruct H2 as [|gap' run' rest' runs' Hgap' Hne' Hrun' _ _]; [done|].
    subst gap. apply Forall_app in Hgap as [_ Hgap].
    apply Forall_app in Hgap as [Hgap _].
    destruct run' as [|c run']; [done|].
    apply Forall_cons in Hgap as [Hc _]. by apply Forall_cons in Hrun' as [].
  - remember (gap ++ run ++ rest) as l eqn:El.
    destruct H2 as [gap' Hgap'|gap' run' rest' runs' Hgap' Hne' Hrun' Hrest' Hsub'].
    + subst gap'. apply Forall_app in Hgap' as [_ Hgap'].
      apply Forall_app in Hgap' as [Hgap' _].
      destruct run as [|c run]; [done|].
      apply Forall_cons in Hgap' as [Hc _]. by apply Forall_cons in Hrun as [].
    + assert (forall (r t : list ascii) a,
                 r <> [] -> Forall (fun c => ~ Spec.delimiter c) r ->
                 head (r ++ t) = Some a -> ~ Spec.delimiter a) as Hhead.
      { intros [|c r] t a Hr Hall Ha; [done|]. injection Ha as <-.
        by apply Forall_cons in Hall as []. }
      destruct (span_unique Spec.delimiter gap' gap (run' ++ rest')
                  (run ++ rest)) as [-> Heq]; eauto.
      destruct (span_unique (fun c => ~ Spec.delimiter c) run' run rest' rest)
        as [-> ->]; eauto.
      f_equal. by apply IH.
Qed.

(** Every line has its sequence of maximal runs. *)
Lemma maximal_runs_exist (l : list ascii) :
  exists runs, Spec.maximal_runs l runs.
Proof.
  induction l as [|c l [runs IH]].
  - exists []. by repeat constructor.
  - destruct (in_set c SHH_TOK_DELIM) eqn:Ec.
    + exists runs. apply maximal_runs_prepend; [|done].
      by apply in_set_delimiter.
    + apply (maximal_runs_extend c l runs); [|done].
      by apply in_set_not_delimiter.
Qed.

Lemma maximal_runs_length (l : list ascii) (runs : list (list ascii)) :
  Spec.maximal_runs l runs -> (length runs <= length l)%nat.
Proof.
  induction 1 as [|gap run rest runs Hgap Hne Hrun Hrest Hsub IH];
    [simpl; lia|].
  rewrite !length_app. simpl. destruct run; [done|]. simpl. lia.
Qed.

(** The array [load_args] reads ends with the null marker. *)
Lemma load_args_sentinel (line : list ascii) (tokens : list (option nat)) :
  forall args,
    load_args line tokens = Some args ->
    tokens !! length args = Some None.
Proof.
  induction tokens as [|[p|] tokens IH]; intros args Hargs; simpl in Hargs.
  - done.
  - destruct (cstring_at line p); [|done].
    destruct (load_args line tokens) as [rest|]; [|done].
    injection Hargs as <-. simpl. by apply IH.
  - by injection Hargs as <-.
Qed.

Lemma maximal_runs_not_empty (l : list ascii) (runs : list (list ascii)) :
  Spec.maximal_runs l runs -> Forall (fun run => run <> []) runs.
Proof. induction 1; by constructor. Qed.

(** C7: for every line, [shh_split_line] returns the maximal runs of
    non-delimiter characters of the line, from left to right, where the
    delimiters are space, tab, newline, carriage return and bell: the
    entries of the returned array point to these runs, no run is empty, the
    runs are the only sequence the line admits, and the null marker follows
    the last token.  The line is the C string at the start of the block,
    and the bounds say that the allocator grants the token array and that
    its size fits an [int]. *)
Theorem shh_split_line_maximal_runs (l post : list ascii) (w : world) :
  NUL ∉ l ->
  Z.of_nat (length l) + SHH_TOK_BUFSIZE <= INT_MAX ->
  enough_memory env (sizeof_ptr * (Z.of_nat (length l) + SHH_TOK_BUFSIZE)) ->
  exists tokens line' runs,
    shh_split_line env (l ++ NUL :: post) w = Ret (tokens, line') w
    /\ Spec.maximal_runs l runs
    /\ (forall runs', Spec.maximal_runs l runs' -> runs' = runs)
    /\ Forall (fun run => run <> []) runs
    /\ load_args line' tokens = Some (string_of_list_ascii <$> runs)
    /\ tokens !! length runs = Some None.
Proof.
  intros Hnul Hmax Hmem.
  destruct (maximal_runs_exist l) as [runs Hruns].
  pose proof (maximal_runs_length l runs Hruns) as Hlen.
  destruct (shh_split_line_spec l post runs w) as (tokens & line' & Hrun & Hargs);
    [done|done|lia| |].
  { intros n Hn. apply Hmem. unfold sizeof_ptr in *. lia. }
  exists tokens, line', runs. split_and!; try done.
  - intros runs' Hruns'. by apply (maximal_runs_unique l).
  - by apply (maximal_runs_not_empty l).
  - apply load_args_sentinel in Hargs. by rewrite length_fmap in Hargs.
Qed.

Lemma list_ascii_of_string_app (s t : string) :
  list_ascii_of_string (s +:+ t)
  = list_ascii_of_string s ++ list_ascii_of_string t.
Proof. induction s as [|c s IH]; simpl; [done|]. by rewrite IH. Qed.

Lemma plain_run (t : string) :
  Spec.plain t ->
  list_ascii_of_string t <> []
  /\ Forall (fun c => ~ Spec.delimiter c) (list_ascii_of_string t)
  /\ NUL ∉ list_ascii_of_string t.
Proof.
  intros [Hne Hall]. split_and!.
  - by destruct t.
  - eapply Forall_impl; [exact Hall|]. by intros c [].
  - intros Hin. rewrite Forall_forall in Hall.
    by destruct (Hall NUL Hin) as [_ []].
Qed.

(** The single-space join of plain tokens has exactly these tokens as its
    maximal runs. *)
Lemma join_maximal_runs (ts : list string) :
  Forall Spec.plain ts ->
  Spec.maximal_runs (list_ascii_of_string (Spec.join ts))
                    (list_ascii_of_string <$> ts)
  /\ NUL ∉ list_ascii_of_string (Spec.join ts).
Proof.
  induction 1 as [|t ts Ht Hts [IHruns IHnul]].
  - split; [by repeat constructor|apply not_elem_of_nil].
  - destruct (plain_run t Ht) as (Hne & Hrun & Hnul).
    destruct ts as [|t' ts].
    + split; [|done]. cbn.
      pose proof (Spec.next_run [] (list_ascii_of_string t) [] []) as Hnext.
      rewrite app_nil_r in Hnext. apply Hnext; try done.
    + change (Spec.join (t :: t' :: ts))
        with (t +:+ " " +:+ Spec.join (t' :: ts)).
      rewrite !list_ascii_of_string_app. cbn [list_ascii_of_string app].
      assert (Spec.delimiter " ") as Hsp by by left.
      split.
      * rewrite fmap_cons.
        apply (Spec.next_run [] (list_ascii_of_string t)); try done.
        -- intros c Hc. by injection Hc as <-.
        -- by apply maximal_runs_prepend.
      * rewrite not_elem_of_app, not_elem_of_cons. done.
Qed.

Lemma string_of_list_ascii_fmap (ts : list string) :
  string_of_list_ascii <$> (list_ascii_of_string <$> ts) = ts.
Proof.
  induction ts as [|t ts IH]; [done|].
  rewrite !fmap_cons, IH. by rewrite string_of_list_ascii_of_string.
Qed.

(** C9: for every sequence of tokens that are not empty and contain no
    delimiter (and no NUL), splitting the line made of the tokens joined by
    single spaces gives the sequence back; the tokens [cmd], [a], [b] are
    an instance.  The bounds say that the allocator grants the token array
    and that its size fits an [int]. *)
Theorem split_of_join_round_trip (ts : list string) (post : list ascii)
    (w : world) :
  Forall Spec.plain ts ->
  Z.of_nat (length ts) + SHH_TOK_BUFSIZE <= INT_MAX ->
  enough_memory env (sizeof_ptr * (Z.of_nat (length ts) + SHH_TOK_BUFSIZE)) ->
  exists tokens line',
    shh_split_line env (list_ascii_of_string (Spec.join ts) ++ NUL :: post) w
    = Ret (tokens, line') w
    /\ load_args line' tokens = Some ts.
Proof.
  intros Hts Hmax Hmem.
  destruct (join_maximal_runs ts Hts) as [Hruns Hnul].
  destruct (shh_split_line_spec _ post _ w Hruns Hnul)
    as (tokens & line' & Hrun & Hargs).
  - by rewrite length_fmap.
  - by rewrite length_fmap.
  - exists tokens, line'. split; [done|].
    by rewrite string_of_list_ascii_fmap in Hargs.
Qed.

End SplitLine.

(** ** Dispatch: [shh_execute] and the builtins *)

Lemma strcmp_refl (s : string) : strcmp s s = 0.
Proof. induction s as [|c s IH]; simpl; [done|]. by rewrite decide_True. Qed.

Lemma int_of_char_zero (c : ascii) : int_of_char c = 0 -> c = NUL.
Proof. intros H. by apply int_of_char_inj. Qed.

Lemma strcmp_zero (s t : string) :
  c_string s -> c_string t -> strcmp s t = 0 -> s = t.
Proof.
  unfold c_string. revert t.
  induction s as [|a s IH]; intros [|b t] Hs Ht H; simpl in *.
  - done.
  - apply not_elem_of_cons in Ht as [Hb _].
    destruct Hb. symmetry. apply int_of_char_zero. lia.
  - apply not_elem_of_cons in Hs as [Ha _].
    destruct Ha. symmetry. by apply int_of_char_zero.
  - apply not_elem_of_cons in Hs as [_ Hs].
    apply not_elem_of_cons in Ht as [_ Ht].
    destruct (decide (a = b)) as [-> | Hab].
    + f_equal. by apply IH.
    + destruct Hab. apply int_of_char_inj. lia.
Qed.

Lemma strcmp_eq (s t : string) :
  c_string s -> c_string t -> (strcmp s t =? 0) = bool_decide (s = t).
Proof.
  intros Hs Ht. destruct (decide (s = t)) as [-> | Hne].
  - by rewrite strcmp_refl, bool_decide_eq_true_2.
  - rewrite bool_decide_eq_false_2 by done.
    apply Z.eqb_neq. intros H. by apply Hne, strcmp_zero.
Qed.

Lemma builtin_names_c_strings : Forall c_string builtin_str.
Proof. repeat constructor; unfold c_string; simpl; not_in_list. Qed.

Section Execute.

Variable env : environment.

(** The dispatch loop, unrolled over the three entries of the table. *)
Lemma shh_execute_unrolled (arg0 : string) (rest : list string) (w : world) :
  shh_execute env (arg0 :: rest) w
  = (if strcmp arg0 "cd" =? 0 then shh_cd env (arg0 :: rest)
     else if strcmp arg0 "help" =? 0 then shh_help (arg0 :: rest)
     else if strcmp arg0 "exit" =? 0 then shh_exit (arg0 :: rest)
     else shh_launch env (arg0 :: rest)) w.
Proof.
  cbv -[strcmp Z.eqb shh_cd shh_help shh_exit shh_launch].
  destruct (strcmp arg0 "cd" =? 0); [done|].
  destruct (strcmp arg0 "help" =? 0); [done|].
  destruct (strcmp arg0 "exit" =? 0); done.
Qed.

(** *** Waiting for the child *)

Lemma wait_loop_terminal (stops : list wait_event) :
  forall fuel pid status w t later,
    Forall stopped stops ->
    terminal t ->
    w_pending w = stops ++ inl t :: later ->
    (length stops < fuel)%nat ->
    wait_loop fuel pid status w
    = Ret tt (set_pending later
                (set_waits (w_waits w + length stops + 1) w)).
Proof.
  induction stops as [|ev stops IH];
    intros fuel pid status w t later Hstops Ht Hpending Hfuel;
    (destruct fuel as [|fuel]; [simpl in Hfuel; lia|]);
    cbn [wait_loop]; unfold bind, waitpid; rewrite Hpending; cbn [app].
  - assert (negb (WIFEXITED t) && negb (WIFSIGNALED t) = false) as ->.
    { by destruct t, Ht. }
    unfold ret, set_pending, set_waits. cbn. do 2 f_equal. lia.
  - apply Forall_cons in Hstops as [(s & -> & Hs) Hstops].
    destruct s; try discriminate Hs. cbn [WIFEXITED WIFSIGNALED negb andb].
    erewrite IH; [|done|done|done|simpl in Hfuel; lia].
    unfold set_pending, set_waits. cbn. do 2 f_equal. lia.
Qed.

Lemma wait_loop_blocked (evs : list wait_event) :
  forall fuel pid status w,
    Forall stopped evs ->
    w_pending w = evs ->
    (length evs < fuel)%nat ->
    wait_loop fuel pid status w
    = Halt Blocked (set_pending []
                      (set_waits (w_waits w + length evs) w)).
Proof.
  induction evs as [|ev evs IH];
    intros fuel pid status w Hstops Hpending Hfuel;
    (destruct fuel as [|fuel]; [simpl in Hfuel; lia|]);
    cbn [wait_loop]; unfold bind, waitpid; rewrite Hpending.
  - f_equal. destruct w. unfold set_pending, set_waits. cbn in *.
    subst. f_equal. lia.
  - apply Forall_cons in Hstops as [(s & -> & Hs) Hstops].
    destruct s; try discriminate Hs. cbn [WIFEXITED WIFSIGNALED negb andb].
    erewrite IH; [|done|done|simpl in Hfuel; lia].
    unfold set_pending, set_waits. cbn. do 2 f_equal. lia.
Qed.

(** *** [shh_launch], seen from the parent *)

Lemma shh_launch_fork_failed (file : string) (rest : list string)
    (w : world) (e : errno) :
  os_fork env (w_forks w) = inr e ->
  shh_launch env (file :: rest) w
  = Ret 1 (set_stderr (w_stderr w ++ ["shh: " +:+ os_strerror env e +:+ nl])
             (set_errno e (set_forks (S (w_forks w)) w))).
Proof.
  intros Hfork. unfold shh_launch, bind at 1, fork. rewrite Hfork.
  reflexivity.
Qed.

Lemma shh_launch_forked (file : string) (rest : list string) (w : world)
    (pid : positive) :
  os_fork env (w_forks w) = inl pid ->
  shh_launch env (file :: rest) w
  = (let w1 := after_fork env pid file (file :: rest) w in
     match wait_loop (S (length (w_pending w1))) (Zpos pid) None w1 with
     | Ret _ w2 => Ret 1 w2
     | Halt h w2 => Halt h w2
     end).
Proof.
  intros Hfork. unfold shh_launch, bind at 1, fork. rewrite Hfork.
  unfold after_fork, child_events, child_messages, child_image.
  unfold shh_launch_as, bind, arg, execvp, perror, fprintf_stderr, exit, stop,
    ret.
  cbn -[wait_loop String.append].
  destruct (os_execvp env (w_forks w) (w_cwd w) file (file :: rest))
    as [evs | e']; cbn -[wait_loop String.append]; by rewrite ?app_nil_r.
Qed.

(** Whatever [fork] returned, [shh_launch] can only return 1; in the child
    it does not return at all. *)
Lemma shh_launch_as_status (pid : Z) (args : list string) (w : world)
    (r : Z) (w' : world) :
  shh_launch_as env pid args w = Ret r w' -> r = 1 /\ pid <> 0.
Proof.
  unfold shh_launch_as, bind. destruct (pid =? 0) eqn:Epid.
  - unfold arg. destruct (0 <=? length args)%nat; [|done].
    unfold ret at 1. destruct (args !! O) as [file|]; [|done].
    unfold execvp.
    by destruct (os_execvp env (w_forks w) (w_cwd w) file args).
  - destruct (pid <? 0).
    + cbn. intros [= <- _]. split; [done|lia].
    + destruct (wait_loop _ _ _ _); [|done].
      cbn. intros [= <- _]. split; [done|lia].
Qed.

Lemma shh_launch_status (args : list string) (w : world) (r : Z)
    (w' : world) :
  shh_launch env args w = Ret r w' -> r = 1.
Proof.
  unfold shh_launch, bind at 1.
  destruct (fork _ _ w) as [pid w1|]; [|done].
  intros H. by apply shh_launch_as_status in H as [].
Qed.

Lemma shh_execute_empty (w : world) : shh_execute env [] w = Ret 1 w.
Proof. reflexivity. Qed.

Lemma shh_cd_missing (arg0 : string) (w : world) :
  shh_cd env [arg0] w
  = Ret 1 (set_stderr (w_stderr w ++ [missing_argument]) w).
Proof. reflexivity. Qed.

Lemma shh_cd_changed (arg0 path : string) (more : list string) (w : world)
    (d : dir) :
  os_chdir env (w_cwd w) path = inl d ->
  shh_cd env (arg0 :: path :: more) w = Ret 1 (set_cwd d w).
Proof.
  intros Hcd. unfold shh_cd, bind, arg, chdir. cbn. by rewrite Hcd.
Qed.

Lemma shh_cd_failed (arg0 path : string) (more : list string) (w : world)
    (e : errno) :
  os_chdir env (w_cwd w) path = inr e ->
  shh_cd env (arg0 :: path :: more) w
  = Ret 1 (set_stderr (w_stderr w ++ ["shh: " +:+ os_strerror env e +:+ nl])
             (set_errno e w)).
Proof.
  intros Hcd. unfold shh_cd, bind, arg, chdir. cbn. by rewrite Hcd.
Qed.

(** [shh_cd] on a sequence with a command name: it returns 1 and creates
    no child. *)
Lemma shh_cd_returns (arg0 : string) (rest : list string) (w : world) :
  exists w',
    shh_cd env (arg0 :: rest) w = Ret 1 w'
    /\ w_forks w' = w_forks w /\ w_children w' = w_children w.
Proof.
  destruct rest as [|path more].
  - eexists. by rewrite shh_cd_missing.
  - destruct (os_chdir env (w_cwd w) path) as [d|e] eqn:Hcd.
    + eexists. by rewrite (shh_cd_changed _ _ _ _ d).
    + eexists. by rewrite (shh_cd_failed _ _ _ _ e).
Qed.

Lemma shh_help_prints (args : list string) (w : world) :
  shh_help args w = Ret 1 (set_stdout (w_stdout w ++ help_text) w).
Proof.
  cbv -[app String.append nl]. unfold set_stdout. cbn.
  by rewrite <- !app_assoc.
Qed.

(** C1: [shh_exit] returns 0 whatever its arguments; [shh_execute] returns
    0 when the first token is [exit], and whenever it returns, the value is
    0 exactly when the first token is [exit] and 1 otherwise; on an empty
    sequence and on [cd] and [help] it does return, with 1.  (That the
    external launch returns is a matter of the child terminating.) *)
Theorem shh_execute_stops_only_on_exit (args : list string) (w : world) :
  Forall c_string args ->
  shh_exit args w = Ret 0 w
  /\ (head args = Some "exit"%string -> shh_execute env args w = Ret 0 w)
  /\ (forall r w',
        shh_execute env args w = Ret r w' ->
        (r = 0 <-> head args = Some "exit"%string)
        /\ (r = 1 <-> head args <> Some "exit"%string))
  /\ (args = [] \/ head args = Some "cd"%string
      \/ head args = Some "help"%string ->
      exists w', shh_execute env args w = Ret 1 w').
Proof.
  intros Hargs. split; [done|].
  destruct args as [|arg0 rest].
  { split_and!; [done| |by exists w].
    intros r w' [= <- <-]. split; split; done. }
  apply Forall_cons in Hargs as [Harg0 _].
  pose proof builtin_names_c_strings as Hnames.
  apply Forall_cons in Hnames as [Hcd Hnames].
  apply Forall_cons in Hnames as [Hhelp Hnames].
  apply Forall_cons in Hnames as [Hexit _].
  rewrite shh_execute_unrolled, !strcmp_eq by done. cbn [head].
  destruct (decide (arg0 = "exit"%string)) as [-> | Hne].
  - cbn. split_and!; [done| |].
    + intros r w' [= <- <-]. split; split; done.
    + intros [|[[=]|[=]]]; done.
  - rewrite (bool_decide_eq_false_2 (arg0 = "exit"%string)) by done.
    assert (Some arg0 <> Some "exit"%string) as Hne' by congruence.
    split_and!; [done| |].
    + intros r w' Hrun.
      assert (r = 1) as ->; [|split; split; done].
      repeat case_bool_decide.
      * destruct (shh_cd_returns arg0 rest w) as (w1 & Hcd1 & _). congruence.
      * rewrite shh_help_prints in Hrun. congruence.
      * by apply shh_launch_status in Hrun.
    + intros [|[[= ->]|[= ->]]]; [done|..]; cbn.
      * destruct (shh_cd_returns "cd" rest w) as (w1 & Hcd1 & _).
        by exists w1.
      * eexists. apply shh_help_prints.
Qed.

(** C10: the status [shh_execute] returns, and the status each handler and
    the external launch return, is 0 or 1, never a third value. *)
Theorem status_is_continue_or_stop (args : list string) (w : world) (r : Z)
    (w' : world) :
  shh_execute env args w = Ret r w'
  \/ shh_cd env args w = Ret r w'
  \/ shh_help args w = Ret r w'
  \/ shh_exit args w = Ret r w'
  \/ shh_launch env args w = Ret r w' ->
  r = 0 \/ r = 1.
Proof.
  assert (forall a r0 w0, shh_cd env a w = Ret r0 w0 -> r0 = 1) as Hcd.
  { intros [|arg0 rest] r0 w0 H; [done|].
    destruct (shh_cd_returns arg0 rest w) as (w1 & H1 & _). congruence. }
  intros [H|[H|[H|[H|H]]]].
  - destruct args as [|arg0 rest]; [right; by injection H as <-|].
    rewrite shh_execute_unrolled in H.
    destruct (strcmp arg0 "cd" =? 0); [right; by eapply Hcd|].
    destruct (strcmp arg0 "help" =? 0).
    { rewrite shh_help_prints in H. right. by injection H as <-. }
    destruct (strcmp arg0 "exit" =? 0); [left; by injection H as <-|].
    right. by eapply shh_launch_status.
  - right. by eapply Hcd.
  - rewrite shh_help_prints in H. right. by injection H as <-.
  - left. by injection H as <-.
  - right. by eapply shh_launch_status.
Qed.

(** C3: on a token sequence that starts with [cd], [shh_execute] runs
    [shh_cd], which returns 1 in every case.  Without a second token the
    working directory is unchanged and the missing-argument message goes to
    standard error; when the second token names a directory [chdir]
    accepts, the working directory becomes that directory and nothing else
    changes; when [chdir] fails, the working directory is unchanged and the
    error is reported on standard error. *)
Theorem shh_cd_behaviour (rest : list string) (w : world) :
  let args := "cd"%string :: rest in
  shh_execute env args w = shh_cd env args w
  /\ (exists w', shh_cd env args w = Ret 1 w')
  /\ (rest = [] ->
      shh_cd env args w
      = Ret 1 (set_stderr (w_stderr w ++ [missing_argument]) w))
  /\ (forall path more d,
        rest = path :: more ->
        os_chdir env (w_cwd w) path = inl d ->
        shh_cd env args w = Ret 1 (set_cwd d w))
  /\ (forall path more e,
        rest = path :: more ->
        os_chdir env (w_cwd w) path = inr e ->
        shh_cd env args w
        = Ret 1 (set_stderr
                   (w_stderr w ++ ["shh: " +:+ os_strerror env e +:+ nl])
                   (set_errno e w))).
Proof.
  intros args. split_and!.
  - unfold args. by rewrite shh_execute_unrolled.
  - destruct (shh_cd_returns "cd" rest w) as (w' & H & _). by exists w'.
  - intros ->. apply shh_cd_missing.
  - intros path more d -> Hcd. by apply shh_cd_changed.
  - intros path more e -> Hcd. by apply shh_cd_failed.
Qed.

(** C4: the external launch never returns a status other than 1.  When
    [fork] fails, it reports the error on standard error and returns 1
    without a single [waitpid] call and without a child.  When [fork]
    succeeds, the parent calls [waitpid] until the first report of a normal
    exit or of a termination by a signal: every report before that which
    says the child is stopped makes it wait again, and it then returns 1;
    while all the reports say "stopped", it does not return. *)
Theorem shh_launch_waits_for_termination (file : string)
    (rest : list string) (w : world) :
  let args := file :: rest in
  let n := w_forks w in
  (forall r w', shh_launch env args w = Ret r w' -> r = 1)
  /\ (forall e,
        os_fork env n = inr e ->
        exists w',
          shh_launch env args w = Ret 1 w'
          /\ w_stderr w'
             = w_stderr w ++ ["shh: " +:+ os_strerror env e +:+ nl]
          /\ w_waits w' = w_waits w
          /\ w_children w' = w_children w)
  /\ (forall pid stops t later,
        os_fork env n = inl pid ->
        child_events env n (w_cwd w) file args = stops ++ inl t :: later ->
        Forall stopped stops ->
        terminal t ->
        shh_launch env args w
        = Ret 1 (set_pending later
                   (set_waits (w_waits w + length stops + 1)
                      (after_fork env pid file args w))))
  /\ (forall pid,
        os_fork env n = inl pid ->
        Forall stopped (child_events env n (w_cwd w) file args) ->
        exists w', shh_launch env args w = Halt Blocked w').
Proof.
  intros args n. split_and!.
  - intros r w'. apply shh_launch_status.
  - intros e Hfork. eexists. split; [by apply shh_launch_fork_failed|done].
  - intros pid stops t later Hfork Hevs Hstops Ht.
    unfold args. rewrite (shh_launch_forked file rest w pid Hfork). cbn zeta.
    assert (w_pending (after_fork env pid file args w)
            = stops ++ inl t :: later) as Hpending by exact Hevs.
    fold args. rewrite (wait_loop_terminal stops _ _ _ _ t later Hstops Ht
                          Hpending); [done|].
    rewrite Hpending, length_app. unfold wait_event in *. simpl. lia.
  - intros pid Hfork Hstops.
    unfold args. rewrite (shh_launch_forked file rest w pid Hfork). cbn zeta.
    eexists. by rewrite (wait_loop_blocked _ _ _ _ _ Hstops); [| |apply le_n].
Qed.

(** C5: when the first token is one of the registered names [cd], [help],
    [exit], compared character by character, [shh_execute] is the handler
    registered for that name applied to the whole sequence, and no [fork]
    call is made and no child is created; when the first token is none of
    the three names, [shh_execute] is the external launch of the whole
    sequence. *)
Theorem shh_execute_dispatch (arg0 : string) (rest : list string)
    (w : world) :
  c_string arg0 ->
  let args := arg0 :: rest in
  (arg0 = "cd"%string -> shh_execute env args w = shh_cd env args w)
  /\ (arg0 = "help"%string -> shh_execute env args w = shh_help args w)
  /\ (arg0 = "exit"%string -> shh_execute env args w = shh_exit args w)
  /\ (arg0 ∈ builtin_str ->
      w_forks (world_of (shh_execute env args w)) = w_forks w
      /\ w_children (world_of (shh_execute env args w)) = w_children w)
  /\ (arg0 ∉ builtin_str ->
      shh_execute env args w = shh_launch env args w).
Proof.
  intros Harg0 args. unfold args.
  pose proof builtin_names_c_strings as Hnames.
  apply Forall_cons in Hnames as [Hcd Hnames].
  apply Forall_cons in Hnames as [Hhelp Hnames].
  apply Forall_cons in Hnames as [Hexit _].
  rewrite shh_execute_unrolled, !strcmp_eq by done.
  split_and!.
  - by intros ->.
  - by intros ->.
  - by intros ->.
  - unfold builtin_str. rewrite !elem_of_cons, elem_of_nil.
    intros [-> | [-> | [-> | []]]];
      rewrite ?bool_decide_eq_false_2 by done;
      rewrite bool_decide_eq_true_2 by done;
      [|by rewrite shh_help_prints|done].
    by destruct (shh_cd_returns "cd" rest w) as (w' & -> & ? & ?).
  - unfold builtin_str. rewrite !not_elem_of_cons.
    intros (? & ? & ? & _). by rewrite !bool_decide_eq_false_2 by done.
Qed.

End Execute.

(** ** Blank lines and the end of the input *)

Section Loop.

Variable env : environment.

(** C6: for every line that is empty or made of delimiters only (space,
    tab, newline, carriage return, bell), the token sequence
    [shh_split_line] returns is empty, and [shh_execute] on the empty
    sequence returns 1 and leaves the world as it was: no handler runs, no
    child is created.  The line is the C string at the start of the block;
    the allocator is assumed to grant the initial token array. *)
Theorem blank_line_is_a_no_op (l post : list ascii) (w : world) :
  Forall Spec.delimiter l ->
  enough_memory env (sizeof_ptr * SHH_TOK_BUFSIZE) ->
  exists tokens line',
    shh_split_line env (l ++ NUL :: post) w = Ret (tokens, line') w
    /\ load_args line' tokens = Some []
    /\ shh_execute env [] w = Ret 1 w.
Proof.
  intros Hl Hmem.
  destruct (shh_split_line_spec env l post [] w)
    as (tokens & line' & Hrun & Hargs).
  - by constructor.
  - intros Hin. rewrite Forall_forall in Hl.
    by apply (delimiter_not_NUL NUL (Hl NUL Hin)).
  - done.
  - intros n Hn. apply Hmem. simpl in Hn. lia.
  - exists tokens, line'. split_and!; [done|done|apply shh_execute_empty].
Qed.

Lemma world_eta_stdout (w : world) : set_stdout (w_stdout w ++ []) w = w.
Proof. destruct w. unfold set_stdout. cbn. by rewrite app_nil_r. Qed.

Lemma shh_read_line_at_eof (w : world) :
  w_stdin w = [] ->
  alloc_ok env (1 * SHH_RL_BUFSIZE) = true ->
  exists junk, shh_read_line env w = Ret (NUL :: junk) w.
Proof.
  intros Hin Hmem. unfold shh_read_line, malloc. rewrite Hmem, Hin.
  cbn [length read_line_loop]. unfold bind at 1, getchar. rewrite Hin.
  change ((EOF =? EOF) || (EOF =? int_of_char "010")) with true.
  cbn match. unfold bind. rewrite store_in_range
    by (rewrite length_fmap, length_seq; done).
  rewrite insert_as_take
    by (rewrite length_fmap, length_seq;
        unfold SHH_RL_BUFSIZE, SHH_TOK_BUFSIZE; lia).
  by eexists.
Qed.

Lemma shh_split_line_at_nul (junk : list ascii) (w : world) :
  alloc_ok env (sizeof_ptr * SHH_TOK_BUFSIZE) = true ->
  exists tokens,
    shh_split_line env (NUL :: junk) w = Ret (None :: tokens, NUL :: junk) w.
Proof.
  intros Hmem. unfold shh_split_line, malloc. rewrite Hmem.
  unfold bind at 1.
  pose proof (strtok_no_token [] [] junk O (Some O) w) as Htok.
  cbn [app length] in Htok. rewrite Htok by done.
  cbn [length split_line_loop]. unfold bind.
  rewrite store_in_range by (rewrite length_fmap, length_seq; done).
  rewrite insert_as_take
    by (rewrite length_fmap, length_seq;
        unfold SHH_RL_BUFSIZE, SHH_TOK_BUFSIZE; lia).
  by eexists.
Qed.

(** One round of the loop when the input is exhausted. *)
Lemma shh_loop_round_at_eof (fuel : nat) (w : world) :
  w_stdin w = [] ->
  shh_loop env (S fuel) w
  = if alloc_ok env (1 * SHH_RL_BUFSIZE)
       && alloc_ok env (sizeof_ptr * SHH_TOK_BUFSIZE)
    then shh_loop env fuel (set_stdout (w_stdout w ++ [prompt]) w)
    else Halt (Exited EXIT_FAILURE)
           (set_stderr (w_stderr w ++ [allocation_error])
              (set_stdout (w_stdout w ++ [prompt]) w)).
Proof.
  intros Hin. cbn [shh_loop]. unfold bind at 1, printf.
  set (w1 := set_stdout _ w).
  assert (w_stdin w1 = []) as Hin1 by done.
  unfold bind at 1.
  destruct (alloc_ok env (1 * SHH_RL_BUFSIZE)) eqn:Hrl; cbn [andb].
  - destruct (shh_read_line_at_eof w1 Hin1 Hrl) as [junk ->].
    unfold bind at 1.
    destruct (alloc_ok env (sizeof_ptr * SHH_TOK_BUFSIZE)) eqn:Htok.
    + destruct (shh_split_line_at_nul junk w1 Htok) as [tokens ->].
      reflexivity.
    + unfold shh_split_line, malloc. by rewrite Htok.
  - unfold shh_read_line, malloc. by rewrite Hrl.
Qed.

(** However many rounds are allowed, the loop does not return once the
    input is exhausted; it is still prompting when memory lasts. *)
Lemma shh_loop_at_eof (fuel : nat) :
  forall w,
    w_stdin w = [] ->
    exists h w',
      shh_loop env fuel w = Halt h w'
      /\ (alloc_ok env (1 * SHH_RL_BUFSIZE) = true ->
          alloc_ok env (sizeof_ptr * SHH_TOK_BUFSIZE) = true ->
          h = OutOfFuel
          /\ w' = set_stdout (w_stdout w ++ replicate fuel prompt) w).
Proof.
  induction fuel as [|fuel IH]; intros w Hin.
  - exists OutOfFuel, w. split; [done|]. intros _ _.
    by rewrite world_eta_stdout.
  - rewrite shh_loop_round_at_eof by done.
    destruct (alloc_ok env (1 * SHH_RL_BUFSIZE)); cbn [andb];
      [destruct (alloc_ok env (sizeof_ptr * SHH_TOK_BUFSIZE))|];
      [|by eexists _, _..].
    destruct (IH (set_stdout (w_stdout w ++ [prompt]) w) Hin)
      as (h & w' & -> & Hrest).
    exists h, w'. split; [done|]. intros _ _.
    destruct Hrest as [-> ->]; [done..|]. split; [done|].
    unfold set_stdout. cbn. by rewrite <- app_assoc.
Qed.

(** C2, amended: once standard input is at its end and no [exit] has been
    given, [main] does not return, however many rounds of the loop are
    allowed; when the allocator grants the line buffer and the token array,
    the loop is still running after any number of rounds, each round having
    printed the prompt, read an empty line and executed the empty command.
    Whenever [main] does return, it returns [EXIT_SUCCESS]. *)
Theorem main_at_end_of_input (fuel : nat) (w : world) :
  w_stdin w = [] ->
  (forall status w', main env fuel w <> Ret status w')
  /\ (alloc_ok env (1 * SHH_RL_BUFSIZE) = true ->
      alloc_ok env (sizeof_ptr * SHH_TOK_BUFSIZE) = true ->
      main env fuel w
      = Halt OutOfFuel (set_stdout (w_stdout w ++ replicate fuel prompt) w))
  /\ (forall fuel0 w0 status w',
        main env fuel0 w0 = Ret status w' -> status = EXIT_SUCCESS).
Proof.
  intros Hin.
  destruct (shh_loop_at_eof fuel w Hin) as (h & w1 & Hloop & Hmem).
  unfold main, bind. rewrite Hloop. split_and!.
  - done.
  - intros Hrl Htok. by destruct (Hmem Hrl Htok) as [-> ->].
  - intros fuel0 w0 status w'. destruct (shh_loop env fuel0 w0); [|done].
    by intros [= <- _].
Qed.

End Loop.

(** ** The statements at sample inputs *)

Ltac c_strings :=
  repeat constructor; unfold c_string; simpl; not_in_list.

Lemma main_returns_after_exit :
  exists w',
    main Sample.env 1 (Sample.world_reading ("exit" +:+ nl)) = Ret EXIT_SUCCESS w'.
Proof. eexists. vm_compute. reflexivity. Qed.

(** The comparison with the builtin names is case-sensitive. *)
Lemma uppercase_cd_is_external :
  shh_execute Sample.env ["CD"; "/tmp"]%string (Sample.world_reading "")
  = shh_launch Sample.env ["CD"; "/tmp"]%string (Sample.world_reading "").
Proof. reflexivity. Qed.

(** Vertical tab is not in [SHH_TOK_DELIM]: a line made of it is a token. *)
Lemma vertical_tab_is_a_token :
  exists tokens line',
    shh_split_line Sample.env ["011"%char; NUL] (Sample.world_reading "")
    = Ret (tokens, line') (Sample.world_reading "")
    /\ load_args line' tokens = Some [String "011" EmptyString].
Proof. eexists _, _. split; vm_compute; reflexivity. Qed.

Lemma main_does_not_return_at_end_of_input :
  ~ exists fuel status w',
      main Sample.env fuel (Sample.world_reading "") = Ret status w'.
Proof.
  intros (fuel & status & w' & Hmain).
  destruct (shh_loop_at_eof Sample.env fuel (Sample.world_reading "") eq_refl)
    as (h & w1 & Hloop & _).
  unfold main, bind in Hmain. by rewrite Hloop in Hmain.
Qed.

Lemma main_at_end_of_input_witness :
  main Sample.env 3 (Sample.world_reading "")
  = Halt OutOfFuel
      (set_stdout [prompt; prompt; prompt] (Sample.world_reading "")).
Proof.
  destruct (main_at_end_of_input Sample.env 3 (Sample.world_reading "")
              eq_refl) as (_ & H & _).
  apply H; reflexivity.
Defined.

Lemma shh_execute_stops_only_on_exit_witness :
  shh_execute Sample.env ["exit"; "3"]%string (Sample.world_reading "")
  = Ret 0 (Sample.world_reading "").
Proof.
  destruct (shh_execute_stops_only_on_exit Sample.env
              ["exit"; "3"]%string (Sample.world_reading ""))
    as (_ & H & _).
  - c_strings.
  - apply H. reflexivity.
Defined.

Lemma status_is_continue_or_stop_witness : 0 = 0 \/ 0 = 1.
Proof.
  apply (status_is_continue_or_stop Sample.env ["exit"]%string
           (Sample.world_reading "") 0 (Sample.world_reading "")).
  left. reflexivity.
Defined.

Lemma shh_cd_behaviour_witness :
  shh_cd Sample.env ["cd"; "/tmp"]%string (Sample.world_reading "")
  = Ret 1 (set_cwd "/tmp" (Sample.world_reading "")).
Proof.
  destruct (shh_cd_behaviour Sample.env ["/tmp"]%string
              (Sample.world_reading "")) as (_ & _ & _ & H & _).
  apply (H "/tmp"%string [] "/tmp"%string); reflexivity.
Defined.

Lemma shh_launch_waits_for_termination_witness :
  shh_launch Sample.env ["ls"; "-l"]%string (Sample.world_reading "")
  = Ret 1 (set_pending []
             (set_waits 2
                (after_fork Sample.env 1 "ls" ["ls"; "-l"]%string
                   (Sample.world_reading "")))).
Proof.
  destruct (shh_launch_waits_for_termination Sample.env "ls"
              ["-l"]%string (Sample.world_reading ""))
    as (_ & _ & H & _).
  apply (H 1%positive [inl (WStopped 19)] (WExited 0) []).
  - reflexivity.
  - reflexivity.
  - repeat constructor. by exists (WStopped 19).
  - by left.
Defined.

Lemma shh_execute_dispatch_witness :
  shh_execute Sample.env ["ls"; "-l"]%string (Sample.world_reading "")
  = shh_launch Sample.env ["ls"; "-l"]%string (Sample.world_reading "").
Proof.
  destruct (shh_execute_dispatch Sample.env "ls" ["-l"]%string
              (Sample.world_reading "")) as (_ & _ & _ & _ & H).
  - unfold c_string. simpl. not_in_list.
  - apply H. unfold builtin_str. not_in_list.
Defined.

Lemma blank_line_is_a_no_op_witness :
  exists tokens line',
    shh_split_line Sample.env
      ([" "; "009"; " "]%char ++ NUL :: []) (Sample.world_reading "")
    = Ret (tokens, line') (Sample.world_reading "")
    /\ load_args line' tokens = Some []
    /\ shh_execute Sample.env [] (Sample.world_reading "")
       = Ret 1 (Sample.world_reading "").
Proof.
  apply (blank_line_is_a_no_op Sample.env).
  - repeat (apply Forall_cons; split; [unfold Spec.delimiter; auto 6|]).
    by apply Forall_nil.
  - apply sample_memory.
Defined.

Lemma shh_split_line_maximal_runs_witness :
  exists tokens line' runs,
    shh_split_line Sample.env
      (list_ascii_of_string " ls  -l " ++ NUL :: [])
      (Sample.world_reading "")
    = Ret (tokens, line') (Sample.world_reading "")
    /\ Spec.maximal_runs (list_ascii_of_string " ls  -l ") runs
    /\ (forall runs',
          Spec.maximal_runs (list_ascii_of_string " ls  -l ") runs' ->
          runs' = runs)
    /\ Forall (fun run => run <> []) runs
    /\ load_args line' tokens = Some (string_of_list_ascii <$> runs)
    /\ tokens !! length runs = Some None.
Proof.
  apply (shh_split_line_maximal_runs Sample.env).
  - simpl. not_in_list.
  - vm_compute. discriminate.
  - apply sample_memory.
Defined.

Lemma split_of_join_round_trip_witness :
  exists tokens line',
    shh_split_line Sample.env
      (list_ascii_of_string (Spec.join ["cmd"; "a"; "b"]%string)
       ++ NUL :: [])
      (Sample.world_reading "")
    = Ret (tokens, line') (Sample.world_reading "")
    /\ load_args line' tokens = Some ["cmd"; "a"; "b"]%string.
Proof.
  apply (split_of_join_round_trip Sample.env).
  - repeat constructor; try done;
      unfold Spec.delimiter; intros H;
      repeat (destruct H as [H|H]; [discriminate H|]); discriminate H.
  - vm_compute. discriminate.
  - apply sample_memory.
Defined.

(** * Further properties of the interpreter *)

(** ** What the builtins and the launch do *)

Section Commands.

Variable env : environment.

(** X1: [shh_help] prints its heading, one line for each registered name in
    the order of the table, and its last line, all on standard output; it
    returns 1 whatever its arguments and changes nothing else. *)
Theorem shh_help_lists_the_builtins (args : list string) (w : world) :
  shh_help args w
  = Ret 1
      (set_stdout
         (w_stdout w
          ++ [ "AkG's SHH " +:+ nl;
               "Type program names and arguments, and hit enter." +:+ nl;
               "The following are built in:" +:+ nl ]
          ++ (help_entry <$> builtin_str)
          ++ [ "Use the man command for information on other programs."
               +:+ nl ])
         w).
Proof. rewrite shh_help_prints. reflexivity. Qed.

(** X2: in the child, [shh_launch] never comes back to the interpreter's loop:
    either [execvp] replaces the process by the program the first token
    names, run with the whole sequence as its arguments, or the child
    reports the error on standard error and exits with [EXIT_FAILURE]. *)
Theorem shh_launch_child_never_returns (args : list string) (w : world) :
  (forall r w', shh_launch_as env 0 args w <> Ret r w')
  /\ (forall file rest,
        args = file :: rest ->
        shh_launch_as env 0 args w
        = match os_execvp env (w_forks w) (w_cwd w) file args with
          | inl evs => Halt (Replaced file args) (set_pending evs w)
          | inr e =>
              Halt (Exited EXIT_FAILURE)
                (set_stderr
                   (w_stderr w ++ ["shh: " +:+ os_strerror env e +:+ nl])
                   (set_errno e w))
          end).
Proof.
  split.
  - intros r w' H. by apply shh_launch_as_status in H as [_ []].
  - intros file rest ->.
    unfold shh_launch_as, bind, arg, execvp. cbn.
    by destruct (os_execvp env (w_forks w) (w_cwd w) file (file :: rest)).
Qed.

(** [waitpid] changes nothing but the reports still pending, its call
    count and [errno]. *)
Lemma wait_loop_preserves (fuel : nat) :
  forall pid status w,
    let w' := world_of (wait_loop fuel pid status w) in
    w_forks w' = w_forks w /\ w_children w' = w_children w
    /\ w_stderr w' = w_stderr w /\ w_stdout w' = w_stdout w
    /\ w_cwd w' = w_cwd w /\ w_stdin w' = w_stdin w.
Proof.
  induction fuel as [|fuel IH]; intros pid status w; [done|].
  cbn [wait_loop]. unfold bind, waitpid.
  destruct (w_pending w) as [|[s|e] evs]; [done| |].
  - destruct (negb (WIFEXITED s) && negb (WIFSIGNALED s)); [|done].
    exact (IH pid (Some s) (set_pending evs (set_waits (S (w_waits w)) w))).
  - destruct status as [s|]; [|done].
    destruct (negb (WIFEXITED s) && negb (WIFSIGNALED s)); [|done].
    exact (IH pid (Some s)
             (set_errno e (set_pending evs (set_waits (S (w_waits w)) w)))).
Qed.


(** X4: one external command is one [fork] call, and at most one child more,
    however the launch ends. *)
Theorem shh_launch_forks_once (file : string) (rest : list string)
    (w : world) :
  let w' := world_of (shh_launch env (file :: rest) w) in
  w_forks w' = S (w_forks w)
  /\ (length (w_children w') <= S (length (w_children w)))%nat
  /\ w_cwd w' = w_cwd w.
Proof.
  destruct (os_fork env (w_forks w)) as [pid|e] eqn:Hfork.
  - rewrite (shh_launch_forked env file rest w pid Hfork). cbn zeta.
    set (w1 := after_fork env pid file (file :: rest) w).
    pose proof (wait_loop_preserves (S (length (w_pending w1))) (Z.pos pid)
                  None w1) as Hkeep.
    cbn zeta in Hkeep.
    destruct (wait_loop _ _ _ w1) as [[] w2|h w2];
      cbn [world_of] in *; destruct Hkeep as (-> & -> & _ & _ & -> & _);
      cbn; rewrite length_app; simpl; split_and!; try done; lia.
  - rewrite (shh_launch_fork_failed env file rest w e Hfork). cbn.
    split_and!; try done. lia.
Qed.

(** X5: after [cd] to a directory, an external command runs there: the child it
    creates inherits the new working directory, and the program is looked
    up from it. *)
Theorem external_command_runs_in_the_new_directory (path : string)
    (more : list string) (file : string) (rest : list string) (w : world)
    (d : dir) (pid : positive) :
  os_chdir env (w_cwd w) path = inl d ->
  os_fork env (w_forks w) = inl pid ->
  c_string file ->
  file ∉ builtin_str ->
  let r :=
    (shh_execute env ("cd"%string :: path :: more) ;;
     shh_execute env (file :: rest)) w in
  w_cwd (world_of r) = d
  /\ w_children (world_of r)
     = w_children w
       ++ [{| ch_pid := pid; ch_cwd := d;
              ch_image := child_image env (w_forks w) d file (file :: rest) |}].
Proof.
  intros Hcd Hfork Hfile Hext r. unfold r, bind.
  assert (shh_execute env ("cd"%string :: path :: more) w
          = Ret 1 (set_cwd d w)) as ->.
  { rewrite shh_execute_unrolled. by apply shh_cd_changed. }
  assert (shh_execute env (file :: rest) (set_cwd d w)
          = shh_launch env (file :: rest) (set_cwd d w)) as ->.
  { pose proof builtin_names_c_strings as Hnames.
    apply Forall_cons in Hnames as [Hn1 Hnames].
    apply Forall_cons in Hnames as [Hn2 Hnames].
    apply Forall_cons in Hnames as [Hn3 _].
    unfold builtin_str in Hext.
    rewrite !not_elem_of_cons in Hext. destruct Hext as (? & ? & ? & _).
    rewrite shh_execute_unrolled, !strcmp_eq by done.
    by rewrite !bool_decide_eq_false_2 by done. }
  rewrite (shh_launch_forked env file rest (set_cwd d w) pid Hfork).
  cbn zeta.
  set (w1 := after_fork env pid file (file :: rest) (set_cwd d w)).
  pose proof (wait_loop_preserves (S (length (w_pending w1))) (Z.pos pid)
                None w1) as Hkeep.
  cbn zeta in Hkeep.
  destruct (wait_loop _ _ _ w1) as [[] w2|h w2];
    cbn [world_of] in *; destruct Hkeep as (_ & -> & _ & _ & -> & _); done.
Qed.

End Commands.

Section LaunchMore.

Variable env : environment.

(** X22: the value [waitpid] returns is never looked at: when the first call
    for a child fails, the loop goes on to test a status that no call has
    written, which is undefined. *)
Theorem shh_launch_tests_status_of_failed_waitpid (file : string)
    (rest : list string) (w : world) (pid : positive) (e : errno)
    (later : list wait_event) :
  os_fork env (w_forks w) = inl pid ->
  child_events env (w_forks w) (w_cwd w) file (file :: rest)
  = inr e :: later ->
  exists w',
    shh_launch env (file :: rest) w = Halt Undefined w'
    /\ w_waits w' = S (w_waits w)
    /\ w_errno w' = e
    /\ w_pending w' = later.
Proof.
  intros Hfork Hevs.
  rewrite (shh_launch_forked env file rest w pid Hfork). cbn zeta.
  assert (w_pending (after_fork env pid file (file :: rest) w)
          = inr e :: later) as Hpending by by cbn.
  cbn [wait_loop]. unfold bind, waitpid. rewrite Hpending.
  eexists. split; [done|]. by cbn.
Qed.

End LaunchMore.

(** ** More on [shh_read_line] *)

Section ReadLineMore.

Variable env : environment.

Lemma shh_read_line_block (w : world) (chars rest : list ascii) :
  w_stdin w = chars ++ rest ->
  newline ∉ chars ->
  rest = [] \/ head rest = Some newline ->
  Z.of_nat (length chars) + SHH_RL_BUFSIZE <= INT_MAX ->
  enough_memory env (Z.of_nat (length chars) + SHH_RL_BUFSIZE) ->
  exists junk,
    shh_read_line env w = Ret (chars ++ NUL :: junk) (set_stdin (tail rest) w).
Proof.
  intros Hin Hnl Hrest Hmax Hmem.
  unfold shh_read_line, malloc. rewrite Hmem by (unfold SHH_RL_BUFSIZE; lia).
  set (buffer := junk_char env <$> _).
  assert (Z.of_nat (length buffer) = SHH_RL_BUFSIZE) as Hlen.
  { unfold buffer. by rewrite length_fmap, length_seq. }
  assert (length chars < S (length (w_stdin w)))%nat as Hfuel.
  { rewrite Hin, length_app. lia. }
  by destruct (read_line_loop_spec env chars (S (length (w_stdin w))) buffer
                 SHH_RL_BUFSIZE 0 w rest) as [junk Hrun]; try done; exists junk.
Qed.

(** The loop while the line still fits the buffer: no allocation. *)
Lemma read_line_loop_fits (chars : list ascii) :
  forall fuel buffer bufsize pos w rest,
    newline ∉ chars ->
    rest = [] \/ head rest = Some newline ->
    w_stdin w = chars ++ rest ->
    (length chars < fuel)%nat ->
    0 <= pos ->
    pos + Z.of_nat (length chars) < bufsize ->
    Z.of_nat (length buffer) = bufsize ->
    read_line_loop env fuel buffer bufsize pos w
    = Ret (take (Z.to_nat pos) buffer ++ chars
           ++ NUL :: drop (S (Z.to_nat pos + length chars)) buffer)
          (set_stdin (tail rest) w).
Proof.
  induction chars as [|c chars IH];
    intros fuel buffer bufsize pos w rest Hnl Hrest Hin Hfuel Hpos Hfit Hlen;
    (destruct fuel as [|fuel]; [simpl in Hfuel; lia|]);
    simpl in Hin, Hfit; cbn [read_line_loop]; unfold bind at 1, getchar;
    rewrite Hin.
  - rewrite Nat.add_0_r. destruct Hrest as [-> | Hhd].
    + cbn. unfold bind. rewrite store_in_range by lia. cbn.
      rewrite insert_as_take by lia. f_equal.
      rewrite <- Hin at 1. by rewrite world_eta_stdin.
    + destruct rest as [|d rest]; [done|]. injection Hhd as ->.
      change ((int_of_char newline =? EOF)
              || (int_of_char newline =? int_of_char "010")) with true.
      cbn. unfold bind. rewrite store_in_range by lia. cbn.
      by rewrite insert_as_take by lia.
  - apply not_elem_of_cons in Hnl as [Hc Hnl].
    assert ((int_of_char c =? EOF) = false) as ->.
    { pose proof (int_of_char_range c). unfold EOF. lia. }
    assert ((int_of_char c =? int_of_char "010") = false) as ->.
    { apply Z.eqb_neq. intros E. apply int_of_char_inj in E. by subst c. }
    cbn [orb]. unfold bind at 1. rewrite store_in_range by lia.
    rewrite char_of_int_of_char.
    destruct (pos + 1 >=? bufsize) eqn:Egrow; [lia|].
    set (buffer1 := <[Z.to_nat pos := c]> buffer).
    assert (Z.of_nat (length buffer1) = bufsize) as Hlen1.
    { unfold buffer1. by rewrite length_insert. }
    rewrite (IH fuel buffer1 bufsize (pos + 1) (set_stdin (chars ++ rest) w)
               rest Hnl Hrest eq_refl ltac:(simpl in Hfuel; lia) ltac:(lia)
               ltac:(lia) Hlen1).
    f_equal. unfold buffer1.
    replace (Z.to_nat (pos + 1)) with (S (Z.to_nat pos)) by lia.
    rewrite (take_S_r _ _ c) by (apply list_lookup_insert_eq; lia).
    rewrite take_insert_ge by lia.
    rewrite <- app_assoc. cbn [app]. do 3 f_equal.
    rewrite drop_insert_lt by lia. do 2 f_equal. simpl. lia.
Qed.

(** X6: a line of fewer than 1024 characters needs the first buffer only:
    when [malloc] grants its 1024 bytes, the line is returned, followed by
    the NUL and the cells of the buffer never written, even if every other
    allocation would fail. *)
Theorem shh_read_line_short_line (w : world) (chars rest : list ascii) :
  w_stdin w = chars ++ rest ->
  newline ∉ chars ->
  rest = [] \/ head rest = Some newline ->
  Z.of_nat (length chars) < SHH_RL_BUFSIZE ->
  alloc_ok env (1 * SHH_RL_BUFSIZE) = true ->
  shh_read_line env w
  = Ret (chars ++ NUL
         :: drop (S (length chars))
              (junk_char env <$> seq 0 (Z.to_nat SHH_RL_BUFSIZE)))
        (set_stdin (tail rest) w).
Proof.
  intros Hin Hnl Hrest Hshort Hmem.
  unfold shh_read_line, malloc. rewrite Hmem.
  assert (length chars < S (length (w_stdin w)))%nat as Hfuel.
  { rewrite Hin, length_app. lia. }
  assert (Z.of_nat (length (junk_char env
                              <$> seq 0 (Z.to_nat SHH_RL_BUFSIZE)))
          = SHH_RL_BUFSIZE) as Hlen.
  { by rewrite length_fmap, length_seq. }
  by rewrite (read_line_loop_fits chars _ _ SHH_RL_BUFSIZE 0 w rest Hnl Hrest
                Hin Hfuel ltac:(done) ltac:(lia) Hlen).
Qed.

(** The loop when the line fills the buffer and the larger one is
    refused. *)
Lemma read_line_loop_refused (chars : list ascii) :
  forall fuel buffer bufsize pos w rest,
    chars <> [] ->
    newline ∉ chars ->
    w_stdin w = chars ++ rest ->
    (length chars < fuel)%nat ->
    0 <= pos ->
    pos + Z.of_nat (length chars) = bufsize ->
    Z.of_nat (length buffer) = bufsize ->
    bufsize + SHH_RL_BUFSIZE <= INT_MAX ->
    alloc_ok env (1 * (bufsize + SHH_RL_BUFSIZE)) = false ->
    read_line_loop env fuel buffer bufsize pos w
    = Halt (Exited EXIT_FAILURE)
        (set_stderr (w_stderr w ++ [allocation_error]) (set_stdin rest w)).
Proof.
  induction chars as [|c chars IH];
    intros fuel buffer bufsize pos w rest Hne Hnl Hin Hfuel Hpos Hfill Hlen
           Hmax Hmem; [done|].
  destruct fuel as [|fuel]; [simpl in Hfuel; lia|].
  simpl in Hin, Hfill, Hfuel. cbn [read_line_loop]. unfold bind at 1, getchar.
  rewrite Hin.
  apply not_elem_of_cons in Hnl as [Hc Hnl].
  assert ((int_of_char c =? EOF) = false) as ->.
  { pose proof (int_of_char_range c). unfold EOF. lia. }
  assert ((int_of_char c =? int_of_char "010") = false) as ->.
  { apply Z.eqb_neq. intros E. apply int_of_char_inj in E. by subst c. }
  cbn [orb]. unfold bind at 1. rewrite store_in_range by lia.
  destruct chars as [|c' chars].
  - simpl in Hfill.
    destruct (pos + 1 >=? bufsize) eqn:Egrow; [|lia].
    unfold bind at 1, int_add.
    destruct (bufsize + SHH_RL_BUFSIZE <=? INT_MAX) eqn:Eov; [|lia].
    unfold ret at 1, realloc. by rewrite Hmem.
  - simpl in Hfill.
    destruct (pos + 1 >=? bufsize) eqn:Egrow; [lia|].
    set (buffer1 := <[Z.to_nat pos := char_of_int (int_of_char c)]> buffer).
    assert (Z.of_nat (length buffer1) = bufsize) as Hlen1.
    { unfold buffer1. by rewrite length_insert. }
    by rewrite (IH fuel buffer1 bufsize (pos + 1)
                  (set_stdin ((c' :: chars) ++ rest) w) rest
                  ltac:(done) Hnl eq_refl ltac:(simpl in *; lia) ltac:(lia)
                  ltac:(simpl; lia) Hlen1 Hmax Hmem).
Qed.

(** X7: a line of 1024 characters or more needs a buffer of 2048 bytes as soon
    as its 1024th character is stored; when [realloc] refuses it, the
    interpreter reports the allocation error and exits with
    [EXIT_FAILURE], having read exactly 1024 characters. *)
Theorem shh_read_line_realloc_refused (w : world) (chars rest : list ascii) :
  w_stdin w = chars ++ rest ->
  newline ∉ chars ->
  Z.of_nat (length chars) = SHH_RL_BUFSIZE ->
  alloc_ok env (1 * SHH_RL_BUFSIZE) = true ->
  alloc_ok env (1 * (SHH_RL_BUFSIZE + SHH_RL_BUFSIZE)) = false ->
  shh_read_line env w
  = Halt (Exited EXIT_FAILURE)
      (set_stderr (w_stderr w ++ [allocation_error]) (set_stdin rest w)).
Proof.
  intros Hin Hnl Hlen Hmem Hrefused.
  unfold shh_read_line, malloc. rewrite Hmem.
  assert (length chars < S (length (w_stdin w)))%nat as Hfuel.
  { rewrite Hin, length_app. lia. }
  assert (Z.of_nat (length (junk_char env
                              <$> seq 0 (Z.to_nat SHH_RL_BUFSIZE)))
          = SHH_RL_BUFSIZE) as Hblock.
  { by rewrite length_fmap, length_seq. }
  assert (chars <> []) as Hne.
  { intros ->. by simpl in Hlen. }
  apply (read_line_loop_refused chars _ _ SHH_RL_BUFSIZE 0 w rest Hne Hnl Hin
           Hfuel); [done|lia|done|done|done].
Qed.

(** X8: a NUL byte in the input ends the line as a C string: what the
    tokenizer and the commands will see of the returned block is the part
    of the line before its first NUL. *)
Theorem shh_read_line_cut_at_nul (w : world) (before after rest : list ascii) :
  w_stdin w = (before ++ NUL :: after) ++ rest ->
  newline ∉ before ++ NUL :: after ->
  NUL ∉ before ->
  rest = [] \/ head rest = Some newline ->
  Z.of_nat (length (before ++ NUL :: after)) + SHH_RL_BUFSIZE <= INT_MAX ->
  enough_memory env
    (Z.of_nat (length (before ++ NUL :: after)) + SHH_RL_BUFSIZE) ->
  exists block,
    shh_read_line env w = Ret block (set_stdin (tail rest) w)
    /\ cstring_at block 0 = Some (string_of_list_ascii before).
Proof.
  intros Hin Hnl Hnul Hrest Hmax Hmem.
  destruct (shh_read_line_block w _ rest Hin Hnl Hrest Hmax Hmem)
    as [junk Hrun].
  eexists. split; [exact Hrun|].
  unfold cstring_at. rewrite drop_0, <- app_assoc. cbn [app].
  by apply cstring_terminated.
Qed.

(** The size of the buffer through the loop: a multiple of 1024 with room
    for the line and its NUL, and no 1024 bytes to spare. *)
Lemma read_line_loop_size (chars : list ascii) :
  forall fuel buffer bufsize pos w rest,
    newline ∉ chars ->
    rest = [] \/ head rest = Some newline ->
    w_stdin w = chars ++ rest ->
    (length chars < fuel)%nat ->
    0 <= pos < bufsize ->
    Z.of_nat (length buffer) = bufsize ->
    bufsize <= pos + SHH_RL_BUFSIZE ->
    (exists k, bufsize = SHH_RL_BUFSIZE * k) ->
    pos + Z.of_nat (length chars) + SHH_RL_BUFSIZE <= INT_MAX ->
    enough_memory env (pos + Z.of_nat (length chars) + SHH_RL_BUFSIZE) ->
    exists block w',
      read_line_loop env fuel buffer bufsize pos w = Ret block w'
      /\ (exists k, Z.of_nat (length block) = SHH_RL_BUFSIZE * k)
      /\ pos + Z.of_nat (length chars) < Z.of_nat (length block)
         <= pos + Z.of_nat (length chars) + SHH_RL_BUFSIZE.
Proof.
  induction chars as [|c chars IH];
    intros fuel buffer bufsize pos w rest Hnl Hrest Hin Hfuel Hpos Hlen Hcap
           Hmul Hmax Hmem;
    (destruct fuel as [|fuel]; [simpl in Hfuel; lia|]);
    simpl in Hin; cbn [read_line_loop]; unfold bind at 1, getchar;
    rewrite Hin.
  - exists (<[Z.to_nat pos := NUL]> buffer), (set_stdin (tail rest) w).
    rewrite length_insert. simpl. split_and!; [|by rewrite Hlen|lia|lia].
    destruct Hrest as [-> | Hhd].
    + cbn. unfold bind. rewrite store_in_range by lia. cbn. f_equal.
      rewrite <- Hin at 1. by rewrite world_eta_stdin.
    + destruct rest as [|d rest]; [done|]. injection Hhd as ->.
      change ((int_of_char newline =? EOF)
              || (int_of_char newline =? int_of_char "010")) with true.
      cbn. unfold bind. by rewrite store_in_range by lia.
  - apply not_elem_of_cons in Hnl as [Hc Hnl].
    rewrite length_cons in Hmax, Hmem. simpl in Hfuel.
    assert ((int_of_char c =? EOF) = false) as ->.
    { pose proof (int_of_char_range c). unfold EOF. lia. }
    assert ((int_of_char c =? int_of_char "010") = false) as ->.
    { apply Z.eqb_neq. intros E. apply int_of_char_inj in E. by subst c. }
    cbn [orb]. unfold bind at 1. rewrite store_in_range by lia.
    rewrite char_of_int_of_char.
    set (buffer1 := <[Z.to_nat pos := c]> buffer).
    assert (length buffer1 = length buffer) as Hlen1 by apply length_insert.
    destruct Hmul as [k Hk]. unfold SHH_RL_BUFSIZE in *.
    destruct (pos + 1 >=? bufsize) eqn:Egrow.
    + set (buffer2 := buffer1 ++ (junk_char env <$> seq (length buffer1) 1024)).
      destruct (IH fuel buffer2 (bufsize + 1024) (pos + 1)
                  (set_stdin (chars ++ rest) w) rest)
        as (block & w' & Hrun & Hmul' & Hsize); try done; try lia.
      { unfold buffer2. rewrite length_app, length_fmap, length_seq. lia. }
      { exists (k + 1). lia. }
      { intros n Hn. apply Hmem. lia. }
      exists block, w'. rewrite length_cons.
      split_and!; [|done|lia|lia].
      unfold bind at 1, int_add.
      destruct (bufsize + 1024 <=? INT_MAX) eqn:Eov; [|lia].
      unfold ret at 1. unfold realloc.
      rewrite Hmem by lia.
      rewrite take_ge by lia.
      match goal with
      | |- context [seq _ ?n] => replace n with 1024%nat by lia
      end.
      exact Hrun.
    + destruct (IH fuel buffer1 bufsize (pos + 1)
                  (set_stdin (chars ++ rest) w) rest)
        as (block & w' & Hrun & Hmul' & Hsize); try done; try lia.
      { by exists k. }
      { intros n Hn. apply Hmem. lia. }
      exists block, w'. rewrite length_cons.
      split_and!; [done|done|lia|lia].
Qed.

(** X9: the block [shh_read_line] returns has room for the line and its NUL;
    its size is a multiple of 1024 bytes and exceeds the length of the line
    by 1024 at most. *)
Theorem shh_read_line_block_size (w : world) (chars rest : list ascii) :
  w_stdin w = chars ++ rest ->
  newline ∉ chars ->
  rest = [] \/ head rest = Some newline ->
  Z.of_nat (length chars) + SHH_RL_BUFSIZE <= INT_MAX ->
  enough_memory env (Z.of_nat (length chars) + SHH_RL_BUFSIZE) ->
  exists block w',
    shh_read_line env w = Ret block w'
    /\ (exists k, Z.of_nat (length block) = SHH_RL_BUFSIZE * k)
    /\ Z.of_nat (length chars) < Z.of_nat (length block)
       <= Z.of_nat (length chars) + SHH_RL_BUFSIZE.
Proof.
  intros Hin Hnl Hrest Hmax Hmem.
  unfold shh_read_line, malloc. rewrite Hmem by (unfold SHH_RL_BUFSIZE; lia).
  set (buffer := junk_char env <$> _).
  assert (Z.of_nat (length buffer) = SHH_RL_BUFSIZE) as Hlen.
  { unfold buffer. by rewrite length_fmap, length_seq. }
  assert (length chars < S (length (w_stdin w)))%nat as Hfuel.
  { rewrite Hin, length_app. lia. }
  apply (read_line_loop_size chars (S (length (w_stdin w))) buffer
           SHH_RL_BUFSIZE 0 w rest); try done.
  exists 1. lia.
Qed.

(** The loop on a line that reaches [line_limit] characters: the size of
    the buffer cannot be raised once more. *)
Lemma read_line_loop_overflow (chars : list ascii) :
  forall fuel buffer bufsize pos w rest,
    chars <> [] ->
    newline ∉ chars ->
    w_stdin w = chars ++ rest ->
    (length chars < fuel)%nat ->
    0 <= pos < bufsize ->
    Z.of_nat (length buffer) = bufsize ->
    bufsize <= pos + SHH_RL_BUFSIZE ->
    (exists k, bufsize = SHH_RL_BUFSIZE * k) ->
    pos + Z.of_nat (length chars) = line_limit ->
    enough_memory env line_limit ->
    read_line_loop env fuel buffer bufsize pos w
    = Halt Undefined (set_stdin rest w).
Proof.
  induction chars as [|c chars IH];
    intros fuel buffer bufsize pos w rest Hne Hnl Hin Hfuel Hpos Hlen Hcap
           [k Hk] Hlimit Hmem; [done|].
  destruct fuel as [|fuel]; [simpl in Hfuel; lia|].
  rewrite length_cons in Hlimit, Hfuel.
  simpl in Hin. cbn [read_line_loop]. unfold bind at 1, getchar.
  rewrite Hin.
  apply not_elem_of_cons in Hnl as [Hc Hnl].
  assert ((int_of_char c =? EOF) = false) as ->.
  { pose proof (int_of_char_range c). unfold EOF. lia. }
  assert ((int_of_char c =? int_of_char "010") = false) as ->.
  { apply Z.eqb_neq. intros E. apply int_of_char_inj in E. by subst c. }
  cbn [orb]. unfold bind at 1. rewrite store_in_range by lia.
  set (buffer1 := <[Z.to_nat pos := char_of_int (int_of_char c)]> buffer).
  assert (length buffer1 = length buffer) as Hlen1 by apply length_insert.
  unfold SHH_RL_BUFSIZE, line_limit, INT_MAX in *.
  destruct (pos + 1 >=? bufsize) eqn:Egrow.
  - unfold bind at 1, int_add, INT_MAX.
    destruct (bufsize + 1024 <=? 2147483647) eqn:Eov.
    + unfold ret at 1, realloc. rewrite Hmem by lia.
      assert (chars <> []) as Hne'.
      { intros ->. rewrite length_nil in Hlimit. lia. }
      apply (IH fuel _ (bufsize + 1024) (pos + 1)
               (set_stdin (chars ++ rest) w) rest Hne' Hnl eq_refl);
        try lia.
      * rewrite length_app, length_take, length_fmap, length_seq. lia.
      * exists (k + 1). lia.
      * done.
    + assert (chars = []) as ->.
      { destruct chars; [done|]. rewrite length_cons in Hlimit. lia. }
      done.
  - assert (chars <> []) as Hne'.
    { intros ->. rewrite length_nil in Hlimit. lia. }
    apply (IH fuel buffer1 bufsize (pos + 1)
             (set_stdin (chars ++ rest) w) rest Hne' Hnl eq_refl);
      try lia.
    + by exists k.
    + done.
Qed.

(** X10: the length of a line is limited by the [int] that holds the buffer
    size, not by memory alone: on a line of [INT_MAX - 1023] characters or
    more, with every allocation granted, raising the buffer size once more
    overflows, after exactly that many characters have been read. *)
Theorem shh_read_line_overflows_int (w : world) (chars rest : list ascii) :
  w_stdin w = chars ++ rest ->
  newline ∉ chars ->
  Z.of_nat (length chars) = line_limit ->
  enough_memory env line_limit ->
  shh_read_line env w = Halt Undefined (set_stdin rest w).
Proof.
  intros Hin Hnl Hlimit Hmem.
  unfold shh_read_line, malloc.
  rewrite Hmem by (unfold SHH_RL_BUFSIZE, line_limit; lia).
  assert (chars <> []) as Hne.
  { intros ->. rewrite length_nil in Hlimit. unfold line_limit in *. lia. }
  assert (length chars < S (length (w_stdin w)))%nat as Hfuel.
  { rewrite Hin, length_app. lia. }
  assert (Z.of_nat (length (junk_char env
                              <$> seq 0 (Z.to_nat SHH_RL_BUFSIZE)))
          = SHH_RL_BUFSIZE) as Hblock.
  { by rewrite length_fmap, length_seq. }
  apply (read_line_loop_overflow chars _ _ SHH_RL_BUFSIZE 0 w rest Hne Hnl Hin
           Hfuel ltac:(done) Hblock ltac:(done)
           (ex_intro _ 1 eq_refl) Hlimit Hmem).
Qed.

End ReadLineMore.

(** ** More on [shh_split_line] *)

Lemma bind_ret_inv {A B} (m : M A) (k : A -> M B) (w w' : world) (b : B) :
  bind m k w = Ret b w' ->
  exists a w1, m w = Ret a w1 /\ k a w1 = Ret b w'.
Proof.
  unfold bind. destruct (m w) as [a w1|]; [|done]. intros H. by exists a, w1.
Qed.

Lemma store_ret_inv {A} (block : list A) (i : Z) (x : A) (w w' : world)
    (block' : list A) :
  store block i x w = Ret block' w' -> w' = w.
Proof.
  unfold store. destruct ((0 <=? i) && (i <? Z.of_nat (length block)));
    [|done].
  by intros [= _ <-].
Qed.

Lemma overwritten_refl (line : list ascii) : overwritten line line.
Proof. split; [done|]. intros i c' H. by left. Qed.

Lemma overwritten_trans (l1 l2 l3 : list ascii) :
  overwritten l1 l2 -> overwritten l2 l3 -> overwritten l1 l3.
Proof.
  intros [Hlen12 H12] [Hlen23 H23]. split; [congruence|].
  intros i c3 Hc3.
  destruct (H23 i c3 Hc3) as [H2 | (-> & c2 & H2 & Hd)].
  - by apply H12.
  - destruct (H12 i c2 H2) as [H1 | (-> & _)].
    + right. split; [done|]. by exists c2.
    + by destruct (delimiter_not_NUL NUL).
Qed.

Lemma overwritten_insert (line : list ascii) (e : nat) (c : ascii) :
  line !! e = Some c ->
  Spec.delimiter c ->
  overwritten line (<[e := NUL]> line).
Proof.
  intros Hc Hd. split; [apply length_insert|].
  intros i c' Hi. destruct (decide (i = e)) as [-> | Hne].
  - rewrite list_lookup_insert_eq in Hi by by eapply lookup_lt_Some.
    injection Hi as <-. right. split; [done|]. by exists c.
  - rewrite list_lookup_insert_ne in Hi by done. by left.
Qed.

(** [strcspn] stops at a NUL or at a character of the set. *)
Lemma strcspn_stop (l : list ascii) (reject : string) (c : ascii) :
  l !! strcspn l reject = Some c -> c = NUL \/ in_set c reject = true.
Proof.
  induction l as [|a l IH]; [done|]. cbn [strcspn].
  case_decide; [intros [= <-]; by left|].
  destruct (in_set a reject) eqn:Ea; [intros [= <-]; by right|].
  exact IH.
Qed.

(** One [strtok] call touches the line only by putting a NUL over a
    delimiter, and touches nothing else. *)
Lemma strtok_overwritten (line : list ascii) (save : nat)
    (str : option nat) (w w' : world) (token : option nat)
    (line' : list ascii) (save' : nat) :
  strtok line save str SHH_TOK_DELIM w = Ret (token, line', save') w' ->
  w' = w /\ overwritten line line'.
Proof.
  unfold strtok, bind, load.
  set (s := (default save str
             + strspn (drop (default save str) line) SHH_TOK_DELIM)%nat).
  destruct (line !! s) as [c|]; [|done]. unfold ret at 1.
  case_decide.
  { intros [= _ <- _ <-]. split; [done|apply overwritten_refl]. }
  destruct (line !! (s + strcspn (drop s line) SHH_TOK_DELIM)%nat)
    as [d|] eqn:Hd; [|done].
  unfold ret. case_decide.
  { intros [= _ <- _ <-]. split; [done|apply overwritten_refl]. }
  intros [= _ <- _ <-]. split; [done|].
  apply (overwritten_insert _ _ d); [done|].
  rewrite <- lookup_drop in Hd.
  apply strcspn_stop in Hd as [-> | Hd]; [done|].
  by apply in_set_delimiter.
Qed.

Section SplitLineMore.

Variable env : environment.

Lemma split_line_loop_overwritten (fuel : nat) :
  forall line save tokens bufsize pos token w tokens' line' w',
    split_line_loop env fuel line save tokens bufsize pos token w
    = Ret (tokens', line') w' ->
    w' = w /\ overwritten line line'.
Proof.
  induction fuel as [|fuel IH];
    intros line save tokens bufsize pos [p|] w tokens' line' w' Hrun;
    cbn [split_line_loop] in Hrun; try done.
  - apply bind_ret_inv in Hrun as (tk & w1 & Hst & [= _ <- <-]).
    apply store_ret_inv in Hst. split; [done|apply overwritten_refl].
  - apply bind_ret_inv in Hrun as (tk & w1 & Hst & Hrun).
    apply store_ret_inv in Hst as ->.
    apply bind_ret_inv in Hrun as ([tk2 bufsize2] & w2 & Hgrow & Hrun).
    assert (w2 = w) as ->.
    { destruct (pos + 1 >=? bufsize); [|by injection Hgrow as _ _ <-].
      apply bind_ret_inv in Hgrow as (b2 & w3 & Hadd & Hgrow).
      unfold int_add in Hadd.
      destruct (bufsize + SHH_TOK_BUFSIZE <=? INT_MAX); [|done].
      injection Hadd as _ <-.
      destruct (realloc _ _ _ _ _); [|done]. by injection Hgrow as _ _ <-. }
    apply bind_ret_inv in Hrun as ([[token2 line2] save2] & w3 & Htok & Hrun).
    apply strtok_overwritten in Htok as [-> Hover].
    apply IH in Hrun as [-> Hover']. split; [done|].
    by apply (overwritten_trans _ line2).
  - apply bind_ret_inv in Hrun as (tk & w1 & Hst & [= _ <- <-]).
    apply store_ret_inv in Hst. split; [done|apply overwritten_refl].
Qed.

(** X11: whenever [shh_split_line] returns, it has written nothing to the
    streams and changed nothing of the process; the line block has its
    length, and differs from the line it was given only where a delimiter
    has been replaced by NUL. *)
Theorem shh_split_line_overwrites_delimiters_only (line : list ascii)
    (w w' : world) (tokens : list (option nat)) (line' : list ascii) :
  shh_split_line env line w = Ret (tokens, line') w' ->
  w' = w /\ overwritten line line'.
Proof.
  unfold shh_split_line. destruct (malloc _ _ _ _) as [tokens0|]; [|done].
  intros Hrun.
  apply bind_ret_inv in Hrun as ([[token1 line1] save1] & w1 & Htok & Hrun).
  apply strtok_overwritten in Htok as [-> Hover].
  apply split_line_loop_overwritten in Hrun as [-> Hover'].
  split; [done|]. by apply (overwritten_trans _ line1).
Qed.

Lemma cstring_Some (l : list ascii) (t : string) :
  cstring l = Some t ->
  exists rest,
    l = list_ascii_of_string t ++ NUL :: rest
    /\ NUL ∉ list_ascii_of_string t.
Proof.
  revert t. induction l as [|c l IH]; intros t; [done|]. cbn [cstring].
  case_decide as Hc.
  - intros [= <-]. subst c. exists l. split; [done|apply not_elem_of_nil].
  - destruct (cstring l) as [t'|]; [|done]. intros [= <-].
    destruct (IH t' eq_refl) as (rest & -> & Hnul).
    exists rest. split; [done|]. cbn. by apply not_elem_of_cons.
Qed.

Lemma load_args_lookup (line : list ascii) (tokens : list (option nat)) :
  forall args i t,
    load_args line tokens = Some args ->
    args !! i = Some t ->
    exists p, tokens !! i = Some (Some p) /\ cstring_at line p = Some t.
Proof.
  induction tokens as [|[p|] tokens IH]; intros args i t Hargs Hi;
    cbn [load_args] in Hargs; [done| |by injection Hargs as <-].
  destruct (cstring_at line p) as [s|] eqn:Hs; [|done].
  destruct (load_args line tokens) as [more|]; [|done].
  injection Hargs as <-. destruct i as [|i].
  - injection Hi as <-. by exists p.
  - by apply (IH more).
Qed.

(** X12: tokens are not copies: each entry of the returned array points into
    the line, and the token it denotes is the stretch of the line, as it
    was given, that starts there. *)
Theorem shh_split_line_tokens_are_substrings (line : list ascii)
    (w w' : world) (tokens : list (option nat)) (line' : list ascii)
    (args : list string) (i : nat) (t : string) :
  shh_split_line env line w = Ret (tokens, line') w' ->
  load_args line' tokens = Some args ->
  args !! i = Some t ->
  exists p,
    tokens !! i = Some (Some p)
    /\ take (length (list_ascii_of_string t)) (drop p line)
       = list_ascii_of_string t.
Proof.
  intros Hrun Hargs Hi.
  assert (overwritten line line') as [Hlen Hover].
  { unfold shh_split_line in Hrun.
    destruct (malloc _ _ _ _) as [tokens0|]; [|done].
    apply bind_ret_inv in Hrun as ([[token1 line1] save1] & w1 & Htok & Hrun).
    apply strtok_overwritten in Htok as [-> Hover].
    apply split_line_loop_overwritten in Hrun as [-> Hover'].
    by apply (overwritten_trans _ line1). }
  destruct (load_args_lookup line' tokens args i t Hargs Hi) as (p & Hp & Hs).
  exists p. split; [done|].
  apply cstring_Some in Hs as (rest & Hdrop & Hnul).
  set (chars := list_ascii_of_string t) in *.
  apply list_eq. intros j. rewrite lookup_take.
  case_decide as Hj; [|symmetry; apply lookup_ge_None; lia].
  destruct (lookup_lt_is_Some_2 chars j Hj) as [c Hc].
  rewrite Hc, lookup_drop.
  assert (line' !! (p + j)%nat = Some c) as Hc'.
  { rewrite <- lookup_drop, Hdrop. by rewrite lookup_app_l by done. }
  destruct (Hover _ _ Hc') as [H | (-> & _)]; [done|].
  destruct Hnul. by eapply list_elem_of_lookup_2.
Qed.

Lemma maximal_runs_plain (l : list ascii) (runs : list (list ascii)) :
  Spec.maximal_runs l runs ->
  NUL ∉ l ->
  Forall Spec.plain (string_of_list_ascii <$> runs).
Proof.
  induction 1 as [|gap run rest runs Hgap Hne Hrun Hrest Hsub IH];
    intros Hnul; [by constructor|].
  apply not_elem_of_app in Hnul as [_ Hnul].
  apply not_elem_of_app in Hnul as [Hnul_run Hnul_rest].
  rewrite fmap_cons. constructor; [|by apply IH].
  split.
  - destruct run; [done|]. by cbn.
  - rewrite list_ascii_of_string_of_list_ascii.
    rewrite Forall_forall in Hrun. apply Forall_forall.
    intros c Hc. split; [by apply Hrun|]. by intros ->.
Qed.

Lemma plain_c_string (t : string) : Spec.plain t -> c_string t.
Proof. intros Ht. by destruct (plain_run t Ht) as (_ & _ & Hnul). Qed.

(** X13: every token [shh_split_line] returns is a C string that is not empty
    and holds no delimiter: the sequences the dispatcher receives are of
    the kind its properties assume. *)
Theorem shh_split_line_tokens_are_plain (l post : list ascii) (w : world) :
  NUL ∉ l ->
  Z.of_nat (length l) + SHH_TOK_BUFSIZE <= INT_MAX ->
  enough_memory env (sizeof_ptr * (Z.of_nat (length l) + SHH_TOK_BUFSIZE)) ->
  exists tokens line' args,
    shh_split_line env (l ++ NUL :: post) w = Ret (tokens, line') w
    /\ load_args line' tokens = Some args
    /\ Forall Spec.plain args
    /\ Forall c_string args.
Proof.
  intros Hnul Hmax Hmem.
  destruct (maximal_runs_exist l) as [runs Hruns].
  pose proof (maximal_runs_length l runs Hruns) as Hlen.
  destruct (shh_split_line_spec env l post runs w)
    as (tokens & line' & Hrun & Hargs); [done|done|lia| |].
  { intros n Hn. apply Hmem. unfold sizeof_ptr in *. lia. }
  pose proof (maximal_runs_plain l runs Hruns Hnul) as Hplain.
  exists tokens, line', (string_of_list_ascii <$> runs).
  split_and!; try done.
  eapply Forall_impl; [exact Hplain|]. apply plain_c_string.
Qed.

(** X14: the token sequence is empty exactly when the line holds nothing but
    delimiters. *)
Theorem shh_split_line_empty_iff_blank (l post : list ascii) (w : world) :
  NUL ∉ l ->
  Z.of_nat (length l) + SHH_TOK_BUFSIZE <= INT_MAX ->
  enough_memory env (sizeof_ptr * (Z.of_nat (length l) + SHH_TOK_BUFSIZE)) ->
  exists tokens line' args,
    shh_split_line env (l ++ NUL :: post) w = Ret (tokens, line') w
    /\ load_args line' tokens = Some args
    /\ (args = [] <-> Forall Spec.delimiter l).
Proof.
  intros Hnul Hmax Hmem.
  destruct (maximal_runs_exist l) as [runs Hruns].
  pose proof (maximal_runs_length l runs Hruns) as Hlen.
  destruct (shh_split_line_spec env l post runs w)
    as (tokens & line' & Hrun & Hargs); [done|done|lia| |].
  { intros n Hn. apply Hmem. unfold sizeof_ptr in *. lia. }
  exists tokens, line', (string_of_list_ascii <$> runs).
  split_and!; try done. split.
  - intros Hnil. apply fmap_nil_inv in Hnil as ->.
    remember [] as none eqn:Enone.
    by destruct Hruns as [gap Hgap|].
  - intros Hblank.
    by rewrite (maximal_runs_unique l runs [] Hruns (Spec.no_more_runs l Hblank)).
Qed.

(** X15: splitting is a normal form: joining the tokens of a line with single
    spaces and splitting the result gives the same tokens again. *)
Theorem shh_split_line_of_joined_tokens (l post post' : list ascii)
    (w : world) :
  NUL ∉ l ->
  Z.of_nat (length l) + SHH_TOK_BUFSIZE <= INT_MAX ->
  enough_memory env (sizeof_ptr * (Z.of_nat (length l) + SHH_TOK_BUFSIZE)) ->
  exists tokens line' args tokens2 line2,
    shh_split_line env (l ++ NUL :: post) w = Ret (tokens, line') w
    /\ load_args line' tokens = Some args
    /\ shh_split_line env
         (list_ascii_of_string (Spec.join args) ++ NUL :: post') w
       = Ret (tokens2, line2) w
    /\ load_args line2 tokens2 = Some args.
Proof.
  intros Hnul Hmax Hmem.
  destruct (maximal_runs_exist l) as [runs Hruns].
  pose proof (maximal_runs_length l runs Hruns) as Hlen.
  assert (enough_memory env
            (sizeof_ptr * (Z.of_nat (length runs) + SHH_TOK_BUFSIZE)))
    as Hmem'.
  { intros n Hn. apply Hmem. unfold sizeof_ptr in *. lia. }
  destruct (shh_split_line_spec env l post runs w)
    as (tokens & line' & Hrun & Hargs); [done|done|lia|done|].
  pose proof (maximal_runs_plain l runs Hruns Hnul) as Hplain.
  set (args := string_of_list_ascii <$> runs) in *.
  destruct (join_maximal_runs args Hplain) as [Hruns2 Hnul2].
  destruct (shh_split_line_spec env _ post' _ w Hruns2 Hnul2)
    as (tokens2 & line2 & Hrun2 & Hargs2).
  - unfold args. rewrite !length_fmap. lia.
  - unfold args. by rewrite !length_fmap.
  - exists tokens, line', args, tokens2, line2.
    split_and!; try done.
    by rewrite string_of_list_ascii_fmap in Hargs2.
Qed.

End SplitLineMore.

(** ** The token array *)

Lemma store_ret_block {A} (block : list A) (i : Z) (x : A) (w w' : world)
    (block' : list A) :
  store block i x w = Ret block' w' ->
  0 <= i < Z.of_nat (length block) /\ block' = <[Z.to_nat i := x]> block.
Proof.
  unfold store.
  destruct ((0 <=? i) && (i <? Z.of_nat (length block))) eqn:E; [|done].
  intros [= <- _]. split; [lia|done].
Qed.

(** A token [strtok] returns starts inside the block. *)
Lemma strtok_token_inside (line : list ascii) (save : nat)
    (str : option nat) (w w' : world) (p : nat) (line' : list ascii)
    (save' : nat) :
  strtok line save str SHH_TOK_DELIM w = Ret (Some p, line', save') w' ->
  (p < length line')%nat.
Proof.
  intros H.
  destruct (strtok_overwritten _ _ _ _ _ _ _ _ H) as [_ [Hlen _]].
  rewrite Hlen. revert H. unfold strtok, bind, load.
  set (s := (default save str
             + strspn (drop (default save str) line) SHH_TOK_DELIM)%nat).
  destruct (line !! s) as [c|] eqn:Hs; [|done]. unfold ret at 1.
  case_decide; [done|].
  destruct (line !! (s + strcspn (drop s line) SHH_TOK_DELIM)%nat); [|done].
  unfold ret at 1.
  case_decide; intros [= <- _ _ _]; by apply lookup_lt_Some in Hs.
Qed.

Section SplitLineArray.

Variable env : environment.

(** Making room, whenever it succeeds: the entries stored so far are kept,
    and the array is one more block of 1024 entries when it was full. *)
Lemma tokens_grow_inv (tokens : list (option nat)) (bufsize pos : Z)
    (w w' : world) (tokens' : list (option nat)) (bufsize' : Z) :
  (if pos + 1 >=? bufsize then
     let* bufsize := int_add bufsize SHH_TOK_BUFSIZE in
     match realloc env (junk_ptr env) tokens sizeof_ptr bufsize with
     | None => (fprintf_stderr allocation_error ;; exit EXIT_FAILURE)
     | Some tokens => ret (tokens, bufsize)
     end
   else ret (tokens, bufsize)) w
  = Ret (tokens', bufsize') w' ->
  0 <= pos < bufsize ->
  Z.of_nat (length tokens) = bufsize ->
  bufsize <= pos + SHH_TOK_BUFSIZE ->
  (exists k, bufsize = SHH_TOK_BUFSIZE * k) ->
  Z.of_nat (length tokens') = bufsize'
  /\ pos + 1 < bufsize' <= pos + 1 + SHH_TOK_BUFSIZE
  /\ (exists k, bufsize' = SHH_TOK_BUFSIZE * k)
  /\ forall i, (i < Z.to_nat (pos + 1))%nat -> tokens' !! i = tokens !! i.
Proof.
  intros Hgrow Hpos Hlen Hcap [k Hk]. unfold SHH_TOK_BUFSIZE in *.
  destruct (pos + 1 >=? bufsize) eqn:Efull.
  - apply bind_ret_inv in Hgrow as (b2 & w2 & Hadd & Hgrow).
    unfold int_add in Hadd.
    destruct (bufsize + 1024 <=? INT_MAX); [|done].
    injection Hadd as <- <-.
    unfold realloc in Hgrow.
    destruct (alloc_ok env (sizeof_ptr * (bufsize + 1024))); [|done].
    injection Hgrow as <- <- _.
    rewrite take_ge by lia.
    split_and!.
    + rewrite length_app, length_fmap, length_seq. lia.
    + lia.
    + lia.
    + exists (k + 1). lia.
    + intros i Hi. apply lookup_app_l. lia.
  - injection Hgrow as <- <- _.
    split_and!; [done|lia|lia|by exists k|done].
Qed.

Lemma split_line_loop_array (fuel : nat) :
  forall line save tokens bufsize pos token w tokens' line' w',
    split_line_loop env fuel line save tokens bufsize pos token w
    = Ret (tokens', line') w' ->
    0 <= pos < bufsize ->
    Z.of_nat (length tokens) = bufsize ->
    bufsize <= pos + SHH_TOK_BUFSIZE ->
    (exists k, bufsize = SHH_TOK_BUFSIZE * k) ->
    (forall i, (i < Z.to_nat pos)%nat ->
       exists p, tokens !! i = Some (Some p) /\ (p < length line)%nat) ->
    (forall p, token = Some p -> (p < length line)%nat) ->
    exists n : nat,
      tokens' !! n = Some None
      /\ (forall i, (i < n)%nat ->
            exists p, tokens' !! i = Some (Some p) /\ (p < length line')%nat)
      /\ (exists k, Z.of_nat (length tokens') = SHH_TOK_BUFSIZE * k)
      /\ Z.of_nat n < Z.of_nat (length tokens')
         <= Z.of_nat n + SHH_TOK_BUFSIZE.
Proof.
  assert (forall line save tokens bufsize pos w tokens' line' w' f,
             split_line_loop env f line save tokens bufsize pos None w
             = Ret (tokens', line') w' ->
             0 <= pos < bufsize ->
             Z.of_nat (length tokens) = bufsize ->
             bufsize <= pos + SHH_TOK_BUFSIZE ->
             (exists k, bufsize = SHH_TOK_BUFSIZE * k) ->
             (forall i, (i < Z.to_nat pos)%nat ->
                exists p, tokens !! i = Some (Some p)
                          /\ (p < length line)%nat) ->
             exists n : nat,
               tokens' !! n = Some None
               /\ (forall i, (i < n)%nat ->
                     exists p, tokens' !! i = Some (Some p)
                               /\ (p < length line')%nat)
               /\ (exists k, Z.of_nat (length tokens') = SHH_TOK_BUFSIZE * k)
               /\ Z.of_nat n < Z.of_nat (length tokens')
                  <= Z.of_nat n + SHH_TOK_BUFSIZE) as Hlast.
  { intros line save tokens bufsize pos w tokens' line' w' f Hrun Hpos Hlen
           Hcap [k Hk] Hsome.
    assert (store tokens pos None w = Ret tokens' w' /\ line' = line)
      as [Hst ->].
    { destruct f; cbn [split_line_loop] in Hrun;
        apply bind_ret_inv in Hrun as (tk & w1 & Hst & [= <- <- <-]);
        done. }
    apply store_ret_block in Hst as [_ ->].
    exists (Z.to_nat pos). split_and!.
    - apply list_lookup_insert_eq. lia.
    - intros i Hi. rewrite list_lookup_insert_ne by lia. by apply Hsome.
    - exists k. rewrite length_insert. lia.
    - rewrite length_insert. lia.
    - rewrite length_insert. lia. }
  induction fuel as [|fuel IH];
    intros line save tokens bufsize pos [p|] w tokens' line' w' Hrun Hpos
           Hlen Hcap Hmul Hsome Htoken;
    [done|by apply (Hlast _ _ _ _ _ _ _ _ _ _ Hrun)|
    |by apply (Hlast _ _ _ _ _ _ _ _ _ _ Hrun)].
  cbn [split_line_loop] in Hrun.
  apply bind_ret_inv in Hrun as (tokens1 & w1 & Hst & Hrun).
  apply store_ret_block in Hst as [_ ->].
  apply bind_ret_inv in Hrun as ([tokens2 bufsize2] & w2 & Hgrow & Hrun).
  apply tokens_grow_inv in Hgrow as (Hlen2 & Hcap2 & Hmul2 & Hkeep);
    [|done|by rewrite length_insert|done|done].
  apply bind_ret_inv in Hrun as ([[token2 line2] save2] & w3 & Htok & Hrun).
  destruct (strtok_overwritten _ _ _ _ _ _ _ _ Htok) as [_ [Hsame _]].
  apply IH in Hrun; [done|lia|done|lia|done| |].
  - intros i Hi. rewrite Hkeep by done. rewrite Hsame.
    destruct (decide (i = Z.to_nat pos)) as [->|Hne].
    + exists p. split; [apply list_lookup_insert_eq; lia|by apply Htoken].
    + rewrite list_lookup_insert_ne by done. apply Hsome. lia.
  - intros p2 ->. by apply strtok_token_inside in Htok.
Qed.

(** X20: the array [shh_split_line] returns is null-terminated and its entries
    before the null marker point inside the line block; there are as many
    of them as tokens.  Its size is a multiple of 1024 entries, with room
    for the marker and at most 1024 entries more than tokens. *)
Theorem shh_split_line_array_is_terminated (line : list ascii) (w w' : world)
    (tokens : list (option nat)) (line' : list ascii) :
  shh_split_line env line w = Ret (tokens, line') w' ->
  exists n : nat,
    tokens !! n = Some None
    /\ (forall i, (i < n)%nat ->
          exists p, tokens !! i = Some (Some p) /\ (p < length line')%nat)
    /\ (forall args, load_args line' tokens = Some args -> length args = n)
    /\ (exists k, Z.of_nat (length tokens) = SHH_TOK_BUFSIZE * k)
    /\ Z.of_nat n < Z.of_nat (length tokens) <= Z.of_nat n + SHH_TOK_BUFSIZE.
Proof.
  unfold shh_split_line, malloc.
  destruct (alloc_ok env (sizeof_ptr * SHH_TOK_BUFSIZE)); [|done].
  intros Hrun.
  apply bind_ret_inv in Hrun as ([[token1 line1] save1] & w1 & Htok & Hrun).
  apply split_line_loop_array in Hrun
    as (n & Hnull & Hsome & Hmul & Hsize).
  - exists n. split_and!; [done|done| |done|lia|lia].
    intros args Hargs.
    pose proof (load_args_sentinel _ _ _ Hargs) as Hend.
    destruct (Nat.lt_trichotomy (length args) n) as [Hlt|[Heq|Hgt]];
      [|done|].
    + destruct (Hsome _ Hlt) as (p & Hp & _). congruence.
    + destruct (lookup_lt_is_Some_2 args n Hgt) as [t Ht].
      destruct (load_args_lookup _ _ _ _ _ Hargs Ht) as (p & Hp & _).
      congruence.
  - unfold SHH_TOK_BUFSIZE. lia.
  - by rewrite length_fmap, length_seq.
  - unfold SHH_TOK_BUFSIZE. lia.
  - exists 1. lia.
  - intros i Hi. simpl in Hi. lia.
  - intros p ->. by apply strtok_token_inside in Htok.
Qed.

(** The 1024th token fills the first array: the loop asks for 2048 entries
    then, and stops the process when they are refused. *)
Lemma split_line_loop_refused (runs : list (list ascii)) :
  forall (l pre post : list ascii) fuel save str tokens pos w,
    Spec.maximal_runs l runs ->
    NUL ∉ l ->
    default save str = length pre ->
    (length l <= fuel)%nat ->
    0 <= pos < SHH_TOK_BUFSIZE ->
    Z.of_nat (length tokens) = SHH_TOK_BUFSIZE ->
    SHH_TOK_BUFSIZE <= pos + Z.of_nat (length runs) ->
    alloc_ok env (sizeof_ptr * (SHH_TOK_BUFSIZE + SHH_TOK_BUFSIZE)) = false ->
    (let* (token, line, save) :=
       strtok (pre ++ l ++ NUL :: post) save str SHH_TOK_DELIM in
     split_line_loop env fuel line save tokens SHH_TOK_BUFSIZE pos token) w
    = Halt (Exited EXIT_FAILURE)
        (set_stderr (w_stderr w ++ [allocation_error]) w).
Proof.
  induction runs as [|run runs IH];
    intros l pre post fuel save str tokens pos w Hruns Hnul Hs Hfuel Hpos
           Hlen Hmany Hrefused.
  { simpl in Hmany. lia. }
  remember (run :: runs) as some eqn:Esome.
  destruct Hruns as [|gap run' rest runs' Hgap Hne Hrun Hrest Hsub]; [done|].
  injection Esome as -> ->.
  apply not_elem_of_app in Hnul as [Hnul_gap Hnul].
  apply not_elem_of_app in Hnul as [Hnul_run Hnul_rest].
  rewrite !length_app in Hfuel. rewrite length_cons in Hmany.
  assert (length run <> O) as Hrun_len by by destruct run.
  destruct fuel as [|fuel]; [lia|].
  unfold bind at 1. rewrite <- !app_assoc.
  rewrite strtok_token by done.
  cbn [split_line_loop]. unfold bind at 1.
  rewrite store_in_range by lia.
  destruct (pos + 1 >=? SHH_TOK_BUFSIZE) eqn:Efull.
  - unfold bind, int_add.
    change (SHH_TOK_BUFSIZE + SHH_TOK_BUFSIZE <=? INT_MAX) with true.
    unfold ret at 1. unfold realloc. by rewrite Hrefused.
  - unfold bind at 1. unfold ret at 1.
    destruct rest as [|d rest].
    { apply maximal_runs_length in Hsub. simpl in Hsub.
      unfold SHH_TOK_BUFSIZE in *. lia. }
    apply not_elem_of_cons in Hnul_rest as [_ Hnul_rest].
    cbn [app tail length Nat.min]. rewrite Nat.min_0_r.
    specialize (IH rest (pre ++ gap ++ run ++ [NUL]) post fuel
                  (length pre + length gap + length run + 1)%nat None
                  (<[Z.to_nat pos := Some (length pre + length gap)%nat]>
                     tokens)
                  (pos + 1) w).
    rewrite <- !app_assoc in IH. cbn [app] in IH.
    apply IH.
    + apply (maximal_runs_skip d); [by apply Hrest|done].
    + done.
    + rewrite !length_app. simpl. lia.
    + simpl in Hfuel. lia.
    + unfold SHH_TOK_BUFSIZE in *. lia.
    + by rewrite length_insert.
    + lia.
    + done.
Qed.

(** X21: a line of 1024 tokens or more needs a second array: when the first
    is granted and [realloc] refuses the 2048 entries asked for as the
    1024th token is stored, the interpreter reports the allocation error
    and exits with [EXIT_FAILURE]. *)
Theorem shh_split_line_realloc_refused (l post : list ascii)
    (runs : list (list ascii)) (w : world) :
  Spec.maximal_runs l runs ->
  NUL ∉ l ->
  SHH_TOK_BUFSIZE <= Z.of_nat (length runs) ->
  alloc_ok env (sizeof_ptr * SHH_TOK_BUFSIZE) = true ->
  alloc_ok env (sizeof_ptr * (SHH_TOK_BUFSIZE + SHH_TOK_BUFSIZE)) = false ->
  shh_split_line env (l ++ NUL :: post) w
  = Halt (Exited EXIT_FAILURE)
      (set_stderr (w_stderr w ++ [allocation_error]) w).
Proof.
  intros Hruns Hnul Hmany Hfirst Hrefused.
  unfold shh_split_line, malloc. rewrite Hfirst.
  apply (split_line_loop_refused runs l [] post); try done.
  rewrite length_app. lia.
Qed.

End SplitLineArray.

(** ** The loop, round by round *)

Lemma bind_halt_inv {A B} (m : M A) (k : A -> M B) (w w' : world) (h : halt) :
  bind m k w = Halt h w' ->
  m w = Halt h w' \/ exists a w1, m w = Ret a w1 /\ k a w1 = Halt h w'.
Proof.
  unfold bind. destruct (m w) as [a w1|h1 w1].
  - intros H. right. by exists a, w1.
  - intros [= <- <-]. by left.
Qed.

Lemma command_halt_interpreter (h : halt) (w : world) :
  command_halt h -> interpreter_halt h w.
Proof. by destruct h. Qed.

Lemma allocation_error_halt (w : world) {A} :
  forall h w',
    (fprintf_stderr allocation_error ;; exit (A := A) EXIT_FAILURE) w
    = Halt h w' ->
    interpreter_halt h w'.
Proof.
  intros h w' [= <- <-]. split; [done|]. cbn. apply last_snoc.
Qed.

Lemma store_halt {A} (block : list A) (i : Z) (x : A) (w w' : world)
    (h : halt) :
  store block i x w = Halt h w' -> h = Undefined.
Proof.
  unfold store. destruct ((0 <=? i) && (i <? Z.of_nat (length block)));
    [done|].
  by intros [= <- _].
Qed.

Lemma strtok_halt (line : list ascii) (save : nat) (str : option nat)
    (delim : string) (w w' : world) (h : halt) :
  strtok line save str delim w = Halt h w' -> h = Undefined.
Proof.
  unfold strtok, bind, load.
  destruct (line !! _) as [c|]; [|by intros [= <- _]].
  unfold ret at 1. case_decide; [done|].
  destruct (line !! _) as [d|]; [|by intros [= <- _]].
  unfold ret. by case_decide.
Qed.

Section LoopMore.

Variable env : environment.

Lemma read_line_loop_halt (fuel : nat) :
  forall buffer bufsize pos w h w',
    read_line_loop env fuel buffer bufsize pos w = Halt h w' ->
    interpreter_halt h w'.
Proof.
  induction fuel as [|fuel IH]; intros buffer bufsize pos w h w' Hrun;
    cbn [read_line_loop] in Hrun; [by injection Hrun as <- _|].
  apply bind_halt_inv in Hrun as [Hget | (c & w1 & _ & Hrun)].
  { unfold getchar in Hget. by destruct (w_stdin w). }
  destruct ((c =? EOF) || (c =? int_of_char "010")).
  - apply bind_halt_inv in Hrun as [Hst | (b & w2 & _ & Hrun)]; [|done].
    by apply store_halt in Hst as ->.
  - apply bind_halt_inv in Hrun as [Hst | (b & w2 & _ & Hrun)].
    { by apply store_halt in Hst as ->. }
    destruct (pos + 1 >=? bufsize); [|by eapply IH].
    apply bind_halt_inv in Hrun as [Hadd | (b2 & w3 & _ & Hrun)].
    { unfold int_add in Hadd.
      destruct (bufsize + SHH_RL_BUFSIZE <=? INT_MAX); [done|].
      by injection Hadd as <- _. }
    destruct (realloc _ _ _ _ _); [by eapply IH|].
    by apply allocation_error_halt in Hrun.
Qed.

Lemma shh_read_line_halt (w : world) (h : halt) (w' : world) :
  shh_read_line env w = Halt h w' -> interpreter_halt h w'.
Proof.
  unfold shh_read_line. destruct (malloc _ _ _ _).
  - apply read_line_loop_halt.
  - apply allocation_error_halt.
Qed.

Lemma split_line_loop_halt (fuel : nat) :
  forall line save tokens bufsize pos token w h w',
    split_line_loop env fuel line save tokens bufsize pos token w
    = Halt h w' ->
    interpreter_halt h w'.
Proof.
  induction fuel as [|fuel IH];
    intros line save tokens bufsize pos [p|] w h w' Hrun;
    cbn [split_line_loop] in Hrun.
  - by injection Hrun as <- _.
  - apply bind_halt_inv in Hrun as [Hst | (b & w2 & _ & Hrun)]; [|done].
    by apply store_halt in Hst as ->.
  - apply bind_halt_inv in Hrun as [Hst | (tk & w1 & _ & Hrun)].
    { by apply store_halt in Hst as ->. }
    apply bind_halt_inv in Hrun as [Hgrow | ([tk2 b2] & w2 & _ & Hrun)].
    { destruct (pos + 1 >=? bufsize); [|done].
      apply bind_halt_inv in Hgrow as [Hadd | (b3 & w3 & _ & Hgrow)].
      - unfold int_add in Hadd.
        destruct (bufsize + SHH_TOK_BUFSIZE <=? INT_MAX); [done|].
        by injection Hadd as <- _.
      - destruct (realloc _ _ _ _ _); [done|].
        by apply allocation_error_halt in Hgrow. }
    apply bind_halt_inv in Hrun
      as [Htok | ([[token2 line2] save2] & w3 & _ & Hrun)].
    { by apply strtok_halt in Htok as ->. }
    by eapply IH.
  - apply bind_halt_inv in Hrun as [Hst | (b & w2 & _ & Hrun)]; [|done].
    by apply store_halt in Hst as ->.
Qed.

Lemma shh_split_line_halt (line : list ascii) (w : world) (h : halt)
    (w' : world) :
  shh_split_line env line w = Halt h w' -> interpreter_halt h w'.
Proof.
  unfold shh_split_line. destruct (malloc _ _ _ _).
  - intros Hrun.
    apply bind_halt_inv in Hrun
      as [Htok | ([[token line1] save] & w1 & _ & Hrun)].
    + by apply strtok_halt in Htok as ->.
    + by eapply split_line_loop_halt.
  - apply allocation_error_halt.
Qed.

Lemma wait_loop_halt (fuel : nat) :
  forall pid status w h w',
    wait_loop fuel pid status w = Halt h w' -> command_halt h.
Proof.
  induction fuel as [|fuel IH]; intros pid status w h w' Hrun;
    cbn [wait_loop] in Hrun; [by injection Hrun as <- _|].
  apply bind_halt_inv in Hrun as [Hwait | ([wpid st] & w1 & _ & Hrun)].
  { unfold waitpid in Hwait.
    destruct (w_pending w) as [|[s|e] evs]; [|done..].
    by injection Hwait as <- _. }
  destruct st as [s|]; [|by injection Hrun as <- _].
  destruct (negb (WIFEXITED s) && negb (WIFSIGNALED s)); [|done].
  by eapply IH.
Qed.

Lemma shh_launch_halt (args : list string) (w : world) (h : halt)
    (w' : world) :
  shh_launch env args w = Halt h w' -> command_halt h.
Proof.
  unfold shh_launch. intros Hrun.
  assert (forall pid w1,
             (pid =? 0) = false ->
             shh_launch_as env pid args w1 = Halt h w' -> command_halt h)
    as Hparent.
  { intros pid w1 Hpid. unfold shh_launch_as. rewrite Hpid.
    intros H. apply bind_halt_inv in H as [H | (? & ? & _ & H)]; [|done].
    destruct (pid <? 0); [done|]. by eapply wait_loop_halt. }
  apply bind_halt_inv in Hrun as [Hfork | (pid & w1 & Hfork & Hrun)].
  - unfold fork in Hfork. destruct (os_fork env (w_forks w)); [|done].
    destruct (shh_launch_as env 0 args _) as [r wc|[] wc]; try done;
      by injection Hfork as <- _.
  - unfold fork in Hfork.
    destruct (os_fork env (w_forks w)) as [p|e].
    + destruct (shh_launch_as env 0 args _) as [r wc|[] wc]; try done;
        injection Hfork as <- _; by apply (Hparent (Z.pos p) w1).
    + injection Hfork as <- _. by apply (Hparent (-1) w1).
Qed.

Lemma shh_execute_halt (args : list string) (w : world) (h : halt)
    (w' : world) :
  shh_execute env args w = Halt h w' -> command_halt h.
Proof.
  destruct args as [|arg0 rest]; [done|].
  rewrite shh_execute_unrolled.
  destruct (strcmp arg0 "cd" =? 0).
  { destruct (shh_cd_returns env arg0 rest w) as (w1 & -> & _). done. }
  destruct (strcmp arg0 "help" =? 0); [by rewrite shh_help_prints|].
  destruct (strcmp arg0 "exit" =? 0); [done|].
  apply shh_launch_halt.
Qed.

Lemma shh_loop_halt (fuel : nat) :
  forall w h w', shh_loop env fuel w = Halt h w' -> interpreter_halt h w'.
Proof.
  induction fuel as [|fuel IH]; intros w h w' Hrun; cbn [shh_loop] in Hrun;
    [by injection Hrun as <- _|].
  apply bind_halt_inv in Hrun as [H | ([] & w1 & _ & Hrun)]; [done|].
  apply bind_halt_inv in Hrun as [H | (line & w2 & _ & Hrun)].
  { by apply shh_read_line_halt in H. }
  apply bind_halt_inv in Hrun as [H | ([tokens line'] & w3 & _ & Hrun)].
  { by apply shh_split_line_halt in H. }
  apply bind_halt_inv in Hrun as [H | (args & w4 & _ & Hrun)].
  { destruct (load_args line' tokens); [done|]. by injection H as <- _. }
  apply bind_halt_inv in Hrun as [H | (status & w5 & _ & Hrun)].
  { apply shh_execute_halt in H. by apply command_halt_interpreter. }
  destruct (negb (status =? 0)); [by eapply IH|done].
Qed.

(** X16: the interpreter process ends in two ways only: [main] returns
    [EXIT_SUCCESS], or the process exits with [EXIT_FAILURE] right after
    reporting an allocation error.  No failure of a command ends it, and it
    is never replaced by a program it launches.  (It may also wait for a
    child for ever.) *)
Theorem main_ends_by_return_or_allocation_error (fuel : nat) (w : world) :
  match main env fuel w with
  | Ret status _ => status = EXIT_SUCCESS
  | Halt h w' => interpreter_halt h w'
  end.
Proof.
  unfold main, bind.
  destruct (shh_loop env fuel w) as [[] w'|h w'] eqn:Hloop; [done|].
  by apply shh_loop_halt in Hloop.
Qed.

End LoopMore.

Lemma list_ascii_of_string_fmap (runs : list (list ascii)) :
  list_ascii_of_string <$> (string_of_list_ascii <$> runs) = runs.
Proof.
  induction runs as [|run runs IH]; [done|].
  rewrite !fmap_cons, IH. by rewrite list_ascii_of_string_of_list_ascii.
Qed.

Section LoopRounds.

Variable env : environment.

(** One round of the loop on a line whose maximal runs are [runs]. *)
Lemma shh_loop_step (fuel : nat) (w : world) (chars rest : list ascii)
    (runs : list (list ascii)) :
  w_stdin w = chars ++ rest ->
  newline ∉ chars ->
  NUL ∉ chars ->
  rest = [] \/ head rest = Some newline ->
  Spec.maximal_runs chars runs ->
  Z.of_nat (length chars) + SHH_RL_BUFSIZE <= INT_MAX ->
  enough_memory env (sizeof_ptr * (Z.of_nat (length chars) + SHH_TOK_BUFSIZE)) ->
  shh_loop env (S fuel) w
  = match shh_execute env (string_of_list_ascii <$> runs)
            (set_stdin (tail rest) (set_stdout (w_stdout w ++ [prompt]) w))
    with
    | Ret status w' =>
        if negb (status =? 0) then shh_loop env fuel w' else Ret tt w'
    | Halt h w' => Halt h w'
    end.
Proof.
  intros Hin Hnl Hnul Hrest Hruns Hmax Hmem.
  pose proof (maximal_runs_length chars runs Hruns) as Hlen.
  assert (enough_memory env (Z.of_nat (length chars) + SHH_RL_BUFSIZE))
    as Hmem_line.
  { intros n Hn. apply Hmem.
    unfold SHH_RL_BUFSIZE, SHH_TOK_BUFSIZE, sizeof_ptr in *. lia. }
  assert (enough_memory env
            (sizeof_ptr * (Z.of_nat (length runs) + SHH_TOK_BUFSIZE)))
    as Hmem_tokens.
  { intros n Hn. apply Hmem.
    unfold SHH_RL_BUFSIZE, SHH_TOK_BUFSIZE, sizeof_ptr in *. lia. }
  assert (Z.of_nat (length runs) + SHH_TOK_BUFSIZE <= INT_MAX) as Hmax_tokens.
  { unfold SHH_RL_BUFSIZE, SHH_TOK_BUFSIZE in *. lia. }
  cbn [shh_loop]. unfold bind at 1, printf.
  set (w1 := set_stdout (w_stdout w ++ [prompt]) w).
  destruct (shh_read_line_block env w1 chars rest Hin Hnl Hrest Hmax
              Hmem_line) as [junk Hread].
  unfold bind at 1. rewrite Hread.
  destruct (shh_split_line_spec env chars junk runs
              (set_stdin (tail rest) w1) Hruns Hnul Hmax_tokens Hmem_tokens)
    as (tokens & line' & Hsplit & Hargs).
  unfold bind at 1. rewrite Hsplit. unfold bind at 1. rewrite Hargs.
  unfold ret at 1. unfold bind.
  destruct (shh_execute env _ _) as [status w'|h w']; [|done].
  by destruct (negb (status =? 0)).
Qed.

(** X17: one round of the loop: it prints the prompt, takes the first line off
    standard input (its newline included, the later lines left unread),
    and executes the tokens of that line, which are plain; it goes on to
    the next round unless the command returned 0. *)
Theorem shh_loop_runs_the_first_line (fuel : nat) (w : world)
    (chars rest : list ascii) :
  w_stdin w = chars ++ rest ->
  newline ∉ chars ->
  NUL ∉ chars ->
  rest = [] \/ head rest = Some newline ->
  Z.of_nat (length chars) + SHH_RL_BUFSIZE <= INT_MAX ->
  enough_memory env (sizeof_ptr * (Z.of_nat (length chars) + SHH_TOK_BUFSIZE)) ->
  exists args,
    Spec.maximal_runs chars (list_ascii_of_string <$> args)
    /\ Forall Spec.plain args
    /\ shh_loop env (S fuel) w
       = match shh_execute env args
                 (set_stdin (tail rest)
                    (set_stdout (w_stdout w ++ [prompt]) w))
         with
         | Ret status w' =>
             if negb (status =? 0) then shh_loop env fuel w' else Ret tt w'
         | Halt h w' => Halt h w'
         end.
Proof.
  intros Hin Hnl Hnul Hrest Hmax Hmem.
  destruct (maximal_runs_exist chars) as [runs Hruns].
  exists (string_of_list_ascii <$> runs). split_and!.
  - by rewrite list_ascii_of_string_fmap.
  - by apply (maximal_runs_plain chars).
  - by apply (shh_loop_step fuel w chars rest runs).
Qed.

(** X18: a line whose first token is [exit] ends the interpreter: [main]
    returns [EXIT_SUCCESS] having printed one prompt and read that line;
    what follows the line on standard input stays unread, and the rest of
    the line is ignored. *)
Theorem exit_line_ends_main (fuel : nat) (w : world)
    (gap after rest : list ascii) :
  w_stdin w = (gap ++ list_ascii_of_string "exit" ++ after) ++ rest ->
  Forall Spec.delimiter gap ->
  (forall c, head after = Some c -> Spec.delimiter c) ->
  newline ∉ gap ++ list_ascii_of_string "exit" ++ after ->
  NUL ∉ after ->
  rest = [] \/ head rest = Some newline ->
  Z.of_nat (length (gap ++ list_ascii_of_string "exit" ++ after))
  + SHH_RL_BUFSIZE <= INT_MAX ->
  enough_memory env
    (sizeof_ptr
     * (Z.of_nat (length (gap ++ list_ascii_of_string "exit" ++ after))
        + SHH_TOK_BUFSIZE)) ->
  main env (S fuel) w
  = Ret EXIT_SUCCESS
      (set_stdin (tail rest) (set_stdout (w_stdout w ++ [prompt]) w)).
Proof.
  intros Hin Hgap Hafter Hnl Hnul Hrest Hmax Hmem.
  destruct (maximal_runs_exist after) as [runs Hruns].
  assert (Spec.maximal_runs (gap ++ list_ascii_of_string "exit" ++ after)
            (list_ascii_of_string "exit" :: runs)) as Hline.
  { constructor; try done.
    repeat constructor; unfold Spec.delimiter; intros H;
      repeat (destruct H as [H|H]; [discriminate H|]); discriminate H. }
  assert (NUL ∉ gap ++ list_ascii_of_string "exit" ++ after) as Hnul'.
  { rewrite !not_elem_of_app. split_and!; [|simpl; not_in_list|done].
    intros Hin'. rewrite Forall_forall in Hgap.
    by apply (delimiter_not_NUL NUL (Hgap NUL Hin')). }
  unfold main, bind.
  by rewrite (shh_loop_step fuel w _ rest _ Hin Hnl Hnul' Hrest Hline Hmax
                Hmem).
Qed.

(** X19: a blank line costs a prompt and nothing else: the loop goes on to the
    next round with the line read and the world otherwise as it was. *)
Theorem blank_line_round (fuel : nat) (w : world) (gap rest : list ascii) :
  w_stdin w = gap ++ rest ->
  Forall Spec.delimiter gap ->
  newline ∉ gap ->
  rest = [] \/ head rest = Some newline ->
  Z.of_nat (length gap) + SHH_RL_BUFSIZE <= INT_MAX ->
  enough_memory env (sizeof_ptr * (Z.of_nat (length gap) + SHH_TOK_BUFSIZE)) ->
  shh_loop env (S fuel) w
  = shh_loop env fuel
      (set_stdin (tail rest) (set_stdout (w_stdout w ++ [prompt]) w)).
Proof.
  intros Hin Hgap Hnl Hrest Hmax Hmem.
  assert (NUL ∉ gap) as Hnul.
  { intros Hin'. rewrite Forall_forall in Hgap.
    by apply (delimiter_not_NUL NUL (Hgap NUL Hin')). }
  by rewrite (shh_loop_step fuel w gap rest [] Hin Hnl Hnul Hrest
                (Spec.no_more_runs gap Hgap) Hmax Hmem).
Qed.

End LoopRounds.

(** ** The further properties at sample inputs *)

Lemma not_in_replicate (n : nat) (c d : ascii) : c <> d -> c ∉ replicate n d.
Proof. intros Hne Hin. by apply elem_of_replicate in Hin as [? _]. Qed.

Lemma shh_launch_child_never_returns_witness :
  shh_launch_as Sample.env 0 ["nosuch"]%string (Sample.world_reading "")
  = Halt (Exited EXIT_FAILURE)
      (set_stderr ["shh: No such file or directory" +:+ nl]
         (set_errno 2 (Sample.world_reading ""))).
Proof.
  destruct (shh_launch_child_never_returns Sample.env ["nosuch"]%string
              (Sample.world_reading "")) as [_ H].
  apply (H "nosuch"%string []). reflexivity.
Defined.


Lemma external_command_runs_in_the_new_directory_witness :
  let r :=
    (shh_execute Sample.env ["cd"; "/tmp"]%string ;;
     shh_execute Sample.env ["ls"]%string) (Sample.world_reading "") in
  w_cwd (world_of r) = "/tmp"%string
  /\ w_children (world_of r)
     = [] ++ [{| ch_pid := 1; ch_cwd := "/tmp";
                 ch_image := Some ("ls", ["ls"])%string |}].
Proof.
  apply (external_command_runs_in_the_new_directory Sample.env "/tmp" []
           "ls" [] (Sample.world_reading "") "/tmp"%string 1%positive).
  - reflexivity.
  - reflexivity.
  - unfold c_string. simpl. not_in_list.
  - unfold builtin_str. not_in_list.
Defined.

Lemma shh_read_line_short_line_witness :
  shh_read_line SmallHeap.env
    (Demo.reading (list_ascii_of_string "ls" ++ [newline; "x"%char]))
  = Ret (list_ascii_of_string "ls" ++ NUL
         :: drop 3 (junk_char SmallHeap.env
                      <$> seq 0 (Z.to_nat SHH_RL_BUFSIZE)))
        (set_stdin ["x"%char]
           (Demo.reading (list_ascii_of_string "ls" ++ [newline; "x"%char]))).
Proof.
  apply (shh_read_line_short_line SmallHeap.env
           (Demo.reading (list_ascii_of_string "ls" ++ [newline; "x"%char]))
           (list_ascii_of_string "ls") [newline; "x"%char]).
  - reflexivity.
  - simpl. not_in_list.
  - by right.
  - by vm_compute.
  - reflexivity.
Defined.

Lemma shh_read_line_realloc_refused_witness :
  shh_read_line SmallHeap.env
    (Demo.reading (replicate 1024 "a"%char ++ [newline]))
  = Halt (Exited EXIT_FAILURE)
      (set_stderr ([] ++ [allocation_error])
         (set_stdin [newline]
            (Demo.reading (replicate 1024 "a"%char ++ [newline])))).
Proof.
  apply (shh_read_line_realloc_refused SmallHeap.env
           (Demo.reading (replicate 1024 "a"%char ++ [newline]))
           (replicate 1024 "a"%char) [newline]).
  - reflexivity.
  - by apply not_in_replicate.
  - by rewrite length_replicate.
  - reflexivity.
  - reflexivity.
Defined.

Lemma shh_read_line_cut_at_nul_witness :
  exists block,
    shh_read_line Sample.env
      (Demo.reading ((list_ascii_of_string "ls" ++ NUL
                      :: list_ascii_of_string " -l") ++ [newline]))
    = Ret block
        (set_stdin []
           (Demo.reading ((list_ascii_of_string "ls" ++ NUL
                           :: list_ascii_of_string " -l") ++ [newline])))
    /\ cstring_at block 0 = Some "ls"%string.
Proof.
  apply (shh_read_line_cut_at_nul Sample.env
           (Demo.reading ((list_ascii_of_string "ls" ++ NUL
                           :: list_ascii_of_string " -l") ++ [newline]))
           (list_ascii_of_string "ls") (list_ascii_of_string " -l")
           [newline]).
  - reflexivity.
  - simpl. not_in_list.
  - simpl. not_in_list.
  - by right.
  - by vm_compute.
  - apply sample_memory.
Defined.

Lemma shh_read_line_block_size_witness :
  exists block w',
    shh_read_line Sample.env
      (Demo.reading (replicate 1500 "a"%char ++ [newline]))
    = Ret block w'
    /\ (exists k, Z.of_nat (length block) = SHH_RL_BUFSIZE * k)
    /\ Z.of_nat (length (replicate 1500 "a"%char))
       < Z.of_nat (length block)
       <= Z.of_nat (length (replicate 1500 "a"%char)) + SHH_RL_BUFSIZE.
Proof.
  apply (shh_read_line_block_size Sample.env
           (Demo.reading (replicate 1500 "a"%char ++ [newline]))
           (replicate 1500 "a"%char) [newline]).
  - reflexivity.
  - by apply not_in_replicate.
  - by right.
  - rewrite length_replicate. by vm_compute.
  - apply sample_memory.
Defined.

Lemma shh_read_line_overflows_int_witness :
  shh_read_line Sample.env LongLine.start
  = Halt Undefined (set_stdin [] LongLine.start).
Proof.
  apply (shh_read_line_overflows_int Sample.env LongLine.start
           LongLine.input []).
  - reflexivity.
  - unfold LongLine.input. by apply not_in_replicate.
  - unfold LongLine.input. rewrite length_replicate.
    apply Z2Nat.id. unfold line_limit. lia.
  - apply sample_memory.
Defined.

Lemma shh_split_line_overwrites_delimiters_only_witness :
  Sample.world_reading "" = Sample.world_reading ""
  /\ overwritten Demo.line Demo.split.2.
Proof.
  apply (shh_split_line_overwrites_delimiters_only Sample.env Demo.line
           (Sample.world_reading "") (Sample.world_reading "") Demo.split.1).
  vm_compute. reflexivity.
Defined.

Lemma shh_split_line_tokens_are_substrings_witness :
  exists p,
    Demo.split.1 !! 1%nat = Some (Some p)
    /\ take (length (list_ascii_of_string "-l")) (drop p Demo.line)
       = list_ascii_of_string "-l".
Proof.
  apply (shh_split_line_tokens_are_substrings Sample.env Demo.line
           (Sample.world_reading "") (Sample.world_reading "")
           Demo.split.1 Demo.split.2 ["ls"; "-l"]%string 1 "-l"%string).
  - vm_compute. reflexivity.
  - vm_compute. reflexivity.
  - reflexivity.
Defined.

Lemma shh_split_line_tokens_are_plain_witness :
  exists tokens line' args,
    shh_split_line Sample.env (list_ascii_of_string "ls -l" ++ NUL :: [])
      (Sample.world_reading "")
    = Ret (tokens, line') (Sample.world_reading "")
    /\ load_args line' tokens = Some args
    /\ Forall Spec.plain args
    /\ Forall c_string args.
Proof.
  apply (shh_split_line_tokens_are_plain Sample.env).
  - simpl. not_in_list.
  - by vm_compute.
  - apply sample_memory.
Defined.

Lemma shh_split_line_empty_iff_blank_witness :
  exists tokens line' args,
    shh_split_line Sample.env (list_ascii_of_string "  " ++ NUL :: [])
      (Sample.world_reading "")
    = Ret (tokens, line') (Sample.world_reading "")
    /\ load_args line' tokens = Some args
    /\ (args = [] <-> Forall Spec.delimiter (list_ascii_of_string "  ")).
Proof.
  apply (shh_split_line_empty_iff_blank Sample.env).
  - simpl. not_in_list.
  - by vm_compute.
  - apply sample_memory.
Defined.

Lemma shh_split_line_of_joined_tokens_witness :
  exists tokens line' args tokens2 line2,
    shh_split_line Sample.env
      (list_ascii_of_string "  ls   -l " ++ NUL :: [])
      (Sample.world_reading "")
    = Ret (tokens, line') (Sample.world_reading "")
    /\ load_args line' tokens = Some args
    /\ shh_split_line Sample.env
         (list_ascii_of_string (Spec.join args) ++ NUL :: [])
         (Sample.world_reading "")
       = Ret (tokens2, line2) (Sample.world_reading "")
    /\ load_args line2 tokens2 = Some args.
Proof.
  apply (shh_split_line_of_joined_tokens Sample.env).
  - simpl. not_in_list.
  - by vm_compute.
  - apply sample_memory.
Defined.

Lemma shh_loop_runs_the_first_line_witness :
  exists args,
    Spec.maximal_runs (list_ascii_of_string "cd /tmp")
      (list_ascii_of_string <$> args)
    /\ Forall Spec.plain args
    /\ shh_loop Sample.env 2 (Sample.world_reading ("cd /tmp" +:+ nl))
       = match shh_execute Sample.env args
                 (set_stdin []
                    (set_stdout ([] ++ [prompt])
                       (Sample.world_reading ("cd /tmp" +:+ nl))))
         with
         | Ret status w' =>
             if negb (status =? 0) then shh_loop Sample.env 1 w'
             else Ret tt w'
         | Halt h w' => Halt h w'
         end.
Proof.
  apply (shh_loop_runs_the_first_line Sample.env 1
           (Sample.world_reading ("cd /tmp" +:+ nl))
           (list_ascii_of_string "cd /tmp") [newline]).
  - reflexivity.
  - simpl. not_in_list.
  - simpl. not_in_list.
  - by right.
  - by vm_compute.
  - apply sample_memory.
Defined.

Lemma exit_line_ends_main_witness :
  main Sample.env 1 (Sample.world_reading (" exit 3" +:+ nl +:+ "ls"))
  = Ret EXIT_SUCCESS
      (set_stdin (list_ascii_of_string "ls")
         (set_stdout ([] ++ [prompt])
            (Sample.world_reading (" exit 3" +:+ nl +:+ "ls")))).
Proof.
  apply (exit_line_ends_main Sample.env 0
           (Sample.world_reading (" exit 3" +:+ nl +:+ "ls"))
           [" "%char] (list_ascii_of_string " 3")
           (newline :: list_ascii_of_string "ls")).
  - reflexivity.
  - by repeat constructor.
  - intros c [= <-]. by left.
  - simpl. not_in_list.
  - simpl. not_in_list.
  - by right.
  - by vm_compute.
  - apply sample_memory.
Defined.

Lemma blank_line_round_witness :
  shh_loop Sample.env 2 (Sample.world_reading ("  " +:+ nl +:+ "ls"))
  = shh_loop Sample.env 1
      (set_stdin (list_ascii_of_string "ls")
         (set_stdout ([] ++ [prompt])
            (Sample.world_reading ("  " +:+ nl +:+ "ls")))).
Proof.
  apply (blank_line_round Sample.env 1
           (Sample.world_reading ("  " +:+ nl +:+ "ls"))
           [" "; " "]%char (newline :: list_ascii_of_string "ls")).
  - reflexivity.
  - by repeat constructor.
  - not_in_list.
  - by right.
  - by vm_compute.
  - apply sample_memory.
Defined.

Lemma shh_split_line_array_is_terminated_witness :
  exists n : nat,
    Demo.split.1 !! n = Some None
    /\ (forall i, (i < n)%nat ->
          exists p, Demo.split.1 !! i = Some (Some p)
                    /\ (p < length Demo.split.2)%nat)
    /\ (forall args,
          load_args Demo.split.2 Demo.split.1 = Some args -> length args = n)
    /\ (exists k, Z.of_nat (length Demo.split.1) = SHH_TOK_BUFSIZE * k)
    /\ Z.of_nat n < Z.of_nat (length Demo.split.1)
       <= Z.of_nat n + SHH_TOK_BUFSIZE.
Proof.
  apply (shh_split_line_array_is_terminated Sample.env Demo.line
           (Sample.world_reading "") (Sample.world_reading "")).
  vm_compute. reflexivity.
Defined.

Lemma letters_runs (n : nat) :
  Spec.maximal_runs (ManyTokens.letters n) (replicate n ["a"%char])
  /\ NUL ∉ ManyTokens.letters n.
Proof.
  induction n as [|n [IHruns IHnul]].
  - split; [by repeat constructor|apply not_elem_of_nil].
  - split.
    + apply (Spec.next_run [] ["a"%char] (" "%char :: ManyTokens.letters n)).
      * constructor.
      * done.
      * repeat constructor. unfold Spec.delimiter.
        by intros [|[|[|[|]]]].
      * intros c [= <-]. unfold Spec.delimiter. by left.
      * apply maximal_runs_prepend; [|done].
        unfold Spec.delimiter. by left.
    + cbn [ManyTokens.letters]. rewrite !not_elem_of_cons. done.
Qed.

Lemma shh_split_line_realloc_refused_witness :
  shh_split_line ManyTokens.env (ManyTokens.letters 1024 ++ [NUL])
    (Sample.world_reading "")
  = Halt (Exited EXIT_FAILURE)
      (set_stderr ([] ++ [allocation_error]) (Sample.world_reading "")).
Proof.
  apply (shh_split_line_realloc_refused ManyTokens.env
           (ManyTokens.letters 1024) [] (replicate 1024 ["a"%char])
           (Sample.world_reading "")).
  - apply letters_runs.
  - apply letters_runs.
  - rewrite length_replicate. unfold SHH_TOK_BUFSIZE. lia.
  - reflexivity.
  - reflexivity.
Defined.

Lemma shh_launch_tests_status_of_failed_waitpid_witness :
  exists w',
    shh_launch Interrupted.env ["ls"; "-l"]%string (Sample.world_reading "")
    = Halt Undefined w'
    /\ w_waits w' = S (w_waits (Sample.world_reading ""))
    /\ w_errno w' = 4
    /\ w_pending w' = [inl (WExited 0)].
Proof.
  apply (shh_launch_tests_status_of_failed_waitpid Interrupted.env "ls"
           ["-l"]%string (Sample.world_reading "") 1%positive 4
           [inl (WExited 0)]);
    reflexivity.
Defined.
